(** * Persistence layer of the L2 monitoring backend

    A shallow embedding of the repositories under
    [packages/backend/src/peripherals/database]: every table is the list of
    its rows, every repository method is a function from the table (and the
    method's arguments) to its result and the new table, and a rejected
    promise is [None].

    Layout: the JavaScript values the repositories rely on ([JS]), the
    instant type ([Time]), one module per repository, the fixture of
    [BalanceRepository.test.ts], and then the properties. *)

From Stdlib Require Import ZArith String Ascii List Bool Lia.
From Stdlib Require Import DecimalString DecimalZ.
From Stdlib Require Import PrimFloat.
From stdpp Require Import gmap strings list fin_maps.
From Equations Require Import Equations.

Open Scope Z_scope.

(* ===================================================================== *)
(** ** JavaScript numbers, big integers and their text *)
(* ===================================================================== *)

Module JS.

(** A [number] that holds an integer, or one of the three values that are
    not finite.  Fractions never occur in the columns modelled here. *)
Inductive Number :=
| Finite (z : Z)
| PosInfinity
| NegInfinity
| NaN.

#[global] Instance Number_eq_dec : EqDecision Number.
Proof. solve_decision. Defined.

(** Rounding of a natural number to the nearest binary64 value, ties to
    even: below [2^53] every integer is a binary64 value; above, the 53
    leading bits are kept and the rest decides the rounding. *)
Definition round_binary64 (n : Z) : Z :=
  if n <? 2 ^ 53 then n
  else
    let e := Z.log2 n - 52 in
    let q := Z.shiftr n e in
    let r := Z.land n (Z.ones e) in
    let half := Z.shiftl 1 (e - 1) in
    let q' := if (half <? r) || ((half =? r) && Z.odd q) then q + 1 else q in
    Z.shiftl q' e.

(** [Number(b)] for a bigint [b]. *)
Definition Number_of_bigint (b : Z) : Number :=
  let m := round_binary64 (Z.abs b) in
  if 2 ^ 1024 <=? m then (if b <? 0 then NegInfinity else PosInfinity)
  else Finite (Z.sgn b * m).

(** [BigInt(x)] for a number [x]: a [RangeError] unless [x] is an
    integer. *)
Definition BigInt (x : Number) : option Z :=
  match x with
  | Finite z => Some z
  | _ => None
  end.

(** [Number.isSafeInteger]. *)
Definition isSafeInteger (z : Z) : bool := Z.abs z <? 2 ^ 53.

(** [x.toString()] for an integer [x] below [10^21] in magnitude: its
    decimal digits. *)
Definition toString (z : Z) : string := NilZero.string_of_int (Z.to_int z).

(** The value of a run of decimal digits as a number. *)
Definition digits_to_Number (s : string) : Number :=
  match NilZero.uint_of_string s with
  | Some d => Number_of_bigint (Z.of_uint d)
  | None => NaN
  end.

Definition negate (x : Number) : Number :=
  match x with
  | Finite z => Finite (- z)
  | PosInfinity => NegInfinity
  | NegInfinity => PosInfinity
  | NaN => NaN
  end.

(** Unary plus on a string, on the integer literals: an optional sign and
    decimal digits; the empty string is 0.  The other literals of
    StringToNumber (fraction, exponent, radix prefix, surrounding white
    space) are never written by the repositories; they are read as [NaN]
    here. *)
Definition StringToNumber (s : string) : Number :=
  match s with
  | EmptyString => Finite 0
  | String "+" s' => digits_to_Number s'
  | String "-" s' => negate (digits_to_Number s')
  | _ => digits_to_Number s
  end.

Definition is_digit (c : ascii) : bool :=
  let n := N_of_ascii c in (48 <=? n)%N && (n <=? 57)%N.

Fixpoint digit_prefix (s : string) : string :=
  match s with
  | String c s' => if is_digit c then String c (digit_prefix s') else EmptyString
  | EmptyString => EmptyString
  end.

(** [parseInt(s)]: an optional sign, then the longest run of decimal
    digits; what follows is ignored, and no digit at all is [NaN].
    Leading white space and the [0x] prefix are outside this fragment. *)
Definition parseInt (s : string) : Number :=
  match s with
  | String "+" s' => digits_to_Number (digit_prefix s')
  | String "-" s' => negate (digits_to_Number (digit_prefix s'))
  | _ => digits_to_Number (digit_prefix s)
  end.

End JS.

(* ===================================================================== *)
(** ** UnixTime *)
(* ===================================================================== *)

Module Time.

(** Modelled from the spec: the class [UnixTime] of [@l2beat/common] is
    not among the sources.  The spec has an instant in integer seconds,
    text-encoded in the tables; the class keeps it in a [number].  The
    model takes the safe integers, which a number holds exactly and prints
    digit by digit; the integers beyond them are left out, and
    [new_UnixTime] below does not build them. *)
Record UnixTime := mkUnixTime {
  toNumber : Z;
  isInteger : Is_true (JS.isSafeInteger toNumber)
}.

(** [new UnixTime(x)]: a [TypeError] unless [x] is an integer (here: one
    of the safe integers). *)
Definition new_UnixTime (x : JS.Number) : option UnixTime :=
  match x with
  | JS.Finite z =>
      match Is_true_dec (JS.isSafeInteger z) with
      | left H => Some (mkUnixTime z H)
      | right _ => None
      end
  | _ => None
  end.

Definition toString (t : UnixTime) : string := JS.toString (toNumber t).

Definition leb (a b : UnixTime) : bool := toNumber a <=? toNumber b.

End Time.

Abbreviation UnixTime := Time.UnixTime.

(* ===================================================================== *)
(** ** BlockNumberRepository.ts *)
(* ===================================================================== *)

Module BlockNumberRepository.

Record BlockNumberRecord := {
  timestamp : UnixTime;
  blockNumber : Z
}.

(** [BlockNumberRow] of [knex/types/tables]: the two columns [toRow]
    writes. *)
Record BlockNumberRow := {
  unix_timestamp : string;
  block_number : JS.Number
}.

Definition toRow (record : BlockNumberRecord) : BlockNumberRow :=
  {| unix_timestamp := Time.toString (timestamp record);
     block_number := JS.Number_of_bigint (blockNumber record) |}.

Definition toRecord (row : BlockNumberRow) : option BlockNumberRecord :=
  t ← Time.new_UnixTime (JS.StringToNumber (unix_timestamp row));
  b ← JS.BigInt (block_number row);
  Some {| timestamp := t; blockNumber := b |}.

(** The table [block_numbers]. *)
Abbreviation Table := (list BlockNumberRow).

(** What an insert with [returning('block_number')] hands back for the row
    it inserted: the value of the column, or, from knex 1.0 on, an object
    that holds it.  The knex in use is not among the sources. *)
Inductive Returned :=
| Value (v : JS.Number)
| Object (v : JS.Number).


Definition returning (objects : bool) (row : BlockNumberRow) : Returned :=
  if objects then Object (block_number row) else Value (block_number row).

(** [add]: one [insert] of the row, [returning('block_number')].
    [accepts table row] is whether the store takes the insert of [row] into
    [table]; the schema that decides it is not among the sources.  When the
    store takes it, the row is in the table and [add] returns the first
    element of what the statement returned; when it does not, the promise
    is rejected ([None]) and the table is as it was.  [objects] is whether
    knex returns objects. *)
Definition add (accepts : Table → BlockNumberRow → bool) (objects : bool)
  (record : BlockNumberRecord) (table : Table) : option Returned * Table :=
  let row := toRow record in
  if accepts table row
  then let id := returning objects row in (Some id, table ++ [row])
  else (None, table).

Definition getAll (table : Table) : option (list BlockNumberRecord) :=
  mapM toRecord table.

Definition deleteAll (table : Table) : nat * Table :=
  (length table, []).

End BlockNumberRepository.

(* ===================================================================== *)
(** ** PriceRepository.ts *)
(* ===================================================================== *)

Module PriceRepository.

Record PriceRecord := {
  assetId : string;
  priceUsd : float;
  timestamp : UnixTime
}.

Record DataBoundary := {
  earliest : UnixTime;
  latest : UnixTime
}.

(** [PriceRow] of [knex/types/tables]. *)
Record PriceRow := {
  asset_id : string;
  price_usd : float;
  unix_timestamp : string
}.

Definition toRecord (row : PriceRow) : option PriceRecord :=
  t ← Time.new_UnixTime (JS.StringToNumber (unix_timestamp row));
  Some {| timestamp := t;
          assetId := asset_id row;
          priceUsd := price_usd row |}.

Definition toRow (record : PriceRecord) : PriceRow :=
  {| asset_id := assetId record;
     price_usd := priceUsd record;
     unix_timestamp := JS.toString (Time.toNumber (timestamp record)) |}.

(** The table [coingecko_prices]. *)
Abbreviation Table := (list PriceRow).

Definition getAll (table : Table) : option (list PriceRecord) :=
  mapM toRecord table.

Definition getByTimestamp (timestamp : UnixTime) (table : Table)
  : option (list PriceRecord) :=
  let rows := filter (λ row, unix_timestamp row = Time.toString timestamp) table in
  mapM toRecord rows.

Definition getByToken (assetId : string) (table : Table)
  : option (list PriceRecord) :=
  let rows := filter (λ row, asset_id row = assetId) table in
  mapM toRecord rows.

Definition deleteAll (table : Table) : Table := [].

(** *** addMany *)

(** The chunks of [knex.batchInsert]: consecutive runs of [size] rows, the
    last one shorter when the rows do not divide evenly. *)
Equations chunk {A : Type} (size : nat) (l : list A) : list (list A)
  by wf (length l) lt :=
  chunk 0 _ := [];
  chunk (S n) [] := [];
  chunk (S n) (x :: l) := (x :: take n l) :: chunk (S n) (drop n l).
Next Obligation. rewrite length_drop. lia. Qed.

(** How a call that writes settles: fulfilled with its value and the new
    table, or rejected, after the batches in [inserted] had gone
    through. *)
Inductive Settled (A : Type) :=
| Fulfilled (value : A) (table : Table)
| Rejected (inserted : list (list PriceRow)).
Arguments Fulfilled {A} value table.
Arguments Rejected {A} inserted.

Section Store.

(** Whether the store takes one insert statement of [rows] into
    [table]; a fault of the store is a statement it does not take. *)
Variable accepts : Table → list PriceRow → bool.

(** Modelled from the spec: [knex.batchInsert] is a library call whose
    code is not among the sources.  One insert statement per chunk, in
    order; the first statement the store does not take ends the call
    with its error, the chunks before it inserted. *)
Fixpoint insertChunks (table : Table) (inserted chunks : list (list PriceRow))
  : Settled unit :=
  match chunks with
  | [] => Fulfilled () table
  | c :: rest =>
      if accepts table c
      then insertChunks (table ++ c) (inserted ++ [c]) rest
      else Rejected inserted
  end.

Definition batchInsert (table : Table) (rows : list PriceRow) (chunkSize : nat)
  : Settled unit :=
  insertChunks table [] (chunk chunkSize rows).

Definition addMany (prices : list PriceRecord) (table : Table) : Settled nat :=
  let rows := toRow <$> prices in
  match batchInsert table rows 10000 with
  | Fulfilled _ table' => Fulfilled (length rows) table'
  | Rejected inserted => Rejected inserted
  end.

End Store.

(** *** calcDataBoundaries *)

(** A row of the aggregate query: the asset and the two aggregates, which
    the driver hands over as text. *)
Module Aggregate.
Record Row := {
  asset_id : string;
  min : string;
  max : string
}.
End Aggregate.

(** The integer a [unix_timestamp] column holds. *)
Definition column_value (s : string) : option Z :=
  d ← NilZero.int_of_string s; Some (Z.of_int d).

(** Modelled from the spec: the query [min(unix_timestamp),
    max(unix_timestamp), asset_id ... group by asset_id] runs in the
    store, whose schema is not among the sources.  One row per asset of
    the table, with the least and the greatest timestamp of the asset's
    rows. *)
Definition group (table : Table) (asset : string) : option Aggregate.Row :=
  ts ← mapM column_value (unix_timestamp <$> filter (λ row, asset_id row = asset) table);
  match ts with
  | [] => None
  | t :: ts' =>
      Some {| Aggregate.asset_id := asset;
              Aggregate.min := JS.toString (foldr Z.min t ts');
              Aggregate.max := JS.toString (foldr Z.max t ts') |}
  end.

Definition minMaxGroupByAsset (table : Table) : option (list Aggregate.Row) :=
  mapM (group table) (remove_dups (asset_id <$> table)).

(** [new Map(entries)]: a later entry replaces an earlier one of the same
    key. *)
Definition new_Map {V : Type} (entries : list (string * V)) : gmap string V :=
  foldl (λ m kv, <[kv.1 := kv.2]> m) ∅ entries.

Definition boundary (row : Aggregate.Row) : option (string * DataBoundary) :=
  e ← Time.new_UnixTime (JS.parseInt (Aggregate.min row));
  l ← Time.new_UnixTime (JS.parseInt (Aggregate.max row));
  Some (Aggregate.asset_id row, {| earliest := e; latest := l |}).

Definition calcDataBoundaries (table : Table) : option (gmap string DataBoundary) :=
  rows ← minMaxGroupByAsset table;
  entries ← mapM boundary rows;
  Some (new_Map entries).

End PriceRepository.

(* ===================================================================== *)
(** ** BalanceRepository *)
(* ===================================================================== *)

Module BalanceRepository.

Module BN := BlockNumberRepository.

(** Modelled from the spec: [BalanceRepository.ts] is not among the
    sources, its test is.  The record is the one the test writes: block,
    holder, asset and balance, the first three being the key. *)
Record BalanceRecord := {
  blockNumber : Z;
  holderAddress : string;
  assetId : string;
  balance : Z
}.

#[global] Instance BalanceRecord_eq_dec : EqDecision BalanceRecord.
Proof. solve_decision. Defined.

Definition key (record : BalanceRecord) : Z * string * string :=
  (blockNumber record, holderAddress record, assetId record).

(** The table of balances: its rows in the order they were inserted. *)
Abbreviation Table := (list BalanceRecord).

Definition setBalance (row : BalanceRecord) (b : Z) : BalanceRecord :=
  {| blockNumber := blockNumber row;
     holderAddress := holderAddress row;
     assetId := assetId row;
     balance := b |}.

(** Modelled from the spec: the upsert of one record.  A row of the same
    (blockNumber, holderAddress, assetId) has its balance overwritten
    where it stands; otherwise the record becomes a new row. *)
Fixpoint upsert (record : BalanceRecord) (table : Table) : Table :=
  match table with
  | [] => [record]
  | row :: rest =>
      if decide (key row = key record)
      then setBalance row (balance record) :: rest
      else row :: upsert record rest
  end.

(** Modelled from the spec: [addOrUpdateMany(records)], the upsert of
    every record of the batch, in the order of the batch. *)
Definition addOrUpdateMany (records : list BalanceRecord) (table : Table) : Table :=
  foldl (λ t record, upsert record t) table records.

(** Modelled from the spec: [getByBlock], an equality filter on
    blockNumber. *)
Definition getByBlock (number : Z) (table : Table) : list BalanceRecord :=
  filter (λ row, blockNumber row = number) table.

(** Modelled from the spec: [getByHolderAndAsset], an equality filter on
    both fields. *)
Definition getByHolderAndAsset (holder asset : string) (table : Table)
  : list BalanceRecord :=
  filter (λ row, holderAddress row = holder ∧ assetId row = asset) table.

Definition getAll (table : Table) : list BalanceRecord := table.

Definition deleteAll (table : Table) : Table := [].

(** *** getLatestPerHolder *)

(** What [getLatestPerHolder] returns per row: the fields of the
    BalanceRecord and a [timestamp] (test, lines 232-238). *)
Record BalanceRecordWithTimestamp := {
  record : BalanceRecord;
  timestamp : UnixTime
}.

Definition holder (r : BalanceRecordWithTimestamp) : string :=
  holderAddress (record r).

(** The balance rows joined with the block-number timeline on the block
    number: one row per balance row and timeline entry of its block. *)
Definition joinBlockNumbers (timeline : list BN.BlockNumberRecord) (table : Table)
  : list BalanceRecordWithTimestamp :=
  row ← table;
  n ← filter (λ n, BN.blockNumber n = blockNumber row) timeline;
  [ {| record := row; timestamp := BN.timestamp n |} ].

(** The rows collected into a [Map] from holder to the holder's rows, a
    holder entering the map with its first row. *)
Definition groupByHolder (rows : list BalanceRecordWithTimestamp)
  : gmap string (list BalanceRecordWithTimestamp) :=
  foldl (λ m r, <[holder r := default [] (m !! holder r) ++ [r]]> m) ∅ rows.

(** Modelled from the spec: [getLatestPerHolder].  The balance rows are
    joined with the timeline, the latest ones are kept and collected by
    holder: this much is the shape of the value the test expects (lines
    227-249).  Which joined rows count as the latest is decided in
    [BalanceRepository.ts], which is not among the sources, and the spec and
    the test leave more than one reading of it; it is the parameter
    [isLatest], a choice among the joined rows that may look at the whole
    state. *)
Definition getLatestPerHolder
  (isLatest : list BN.BlockNumberRecord → Table → BalanceRecordWithTimestamp → bool)
  (timeline : list BN.BlockNumberRecord) (table : Table)
  : gmap string (list BalanceRecordWithTimestamp) :=
  groupByHolder
    (filter (λ r, Is_true (isLatest timeline table r))
            (joinBlockNumbers timeline table)).

(** *** Three readings of "latest" *)

(** Two joined rows of one holder and one asset. *)
Definition sameSeries (a b : BalanceRecordWithTimestamp) : Prop :=
  holder a = holder b ∧ assetId (record a) = assetId (record b).

#[global] Instance sameSeries_dec a b : Decision (sameSeries a b).
Proof. unfold sameSeries. apply _. Defined.

(** First reading, "latest balance per holder per asset" (§2) by recorded
    time: no joined row of the same holder and asset has a later
    timestamp. *)
Definition latestOfAssetByTimestamp (timeline : list BN.BlockNumberRecord)
  (table : Table) (r : BalanceRecordWithTimestamp) : bool :=
  forallb (λ r', implb (bool_decide (sameSeries r' r))
                       (Time.leb (timestamp r') (timestamp r)))
          (joinBlockNumbers timeline table).

(** Second reading, per holder and asset by block: no balance row of the
    same holder and asset has a greater block number. *)
Definition latestOfAssetByBlock (timeline : list BN.BlockNumberRecord)
  (table : Table) (r : BalanceRecordWithTimestamp) : bool :=
  forallb (λ row, implb (bool_decide (holderAddress row = holder r
                                      ∧ assetId row = assetId (record r)))
                        (blockNumber row <=? blockNumber (record r)))
          table.



End BalanceRepository.

(* ===================================================================== *)
(** ** BalanceRepository.test.ts *)
(* ===================================================================== *)

Module BalanceRepositoryTest.

Import BalanceRepository.

Definition START_BLOCK_NUMBER : Z := 123456.
Definition MOCK_HOLDER : string := "0x011B6E24FfB0B5f5fCc564cf4183C5BBBc96D515".
Definition MOCK_ASSET : string := "dai-dai-stablecoin".
Definition MOCK_BALANCE : Z := 1000000000000000000.

Definition DATA : list BalanceRecord :=
  [ {| blockNumber := START_BLOCK_NUMBER;
       holderAddress := MOCK_HOLDER;
       assetId := MOCK_ASSET;
       balance := MOCK_BALANCE |};
    {| blockNumber := START_BLOCK_NUMBER + 1;
       holderAddress := MOCK_HOLDER;
       assetId := MOCK_ASSET;
       balance := MOCK_BALANCE |} ].

(** [UnixTime.fromDate(new Date('2022-05-17'))] and one hour later. *)
Definition START : UnixTime := Time.mkUnixTime 1652745600 I.
Definition START_1h : UnixTime := Time.mkUnixTime (1652745600 + 3600) I.

(** [beforeEach]: [deleteAll], then [addOrUpdateMany(DATA)]. *)
Definition beforeEach (table : Table) : Table :=
  addOrUpdateMany DATA (deleteAll table).

(** The test of [getLatestPerHolder], lines 207-223: one more balance row,
    then one timeline entry per record of [DATA], an hour apart.  The
    state is the one the test expects its calls to have reached. *)
Definition additionalRecords : list BalanceRecord :=
  [ {| blockNumber := START_BLOCK_NUMBER;
       holderAddress := MOCK_HOLDER;
       assetId := "token-a";
       balance := MOCK_BALANCE |} ].

(** The batch of 'new rows only', lines 111-128. *)
Definition newRows : list BalanceRecord :=
  [ {| blockNumber := START_BLOCK_NUMBER + 2;
       holderAddress := "0x011B6E24FfB0B5f5fCc564cf4183C5BBBc96D515";
       assetId := "dai-dai-stablecoin";
       balance := MOCK_BALANCE |};
    {| blockNumber := START_BLOCK_NUMBER + 3;
       holderAddress := "0x011B6E24FfB0B5f5fCc564cf4183C5BBBc96D515";
       assetId := "dai-dai-stablecoin";
       balance := MOCK_BALANCE |} ].

(** The batch of 'mixed: existing and new rows', lines 159-174. *)
Definition mixedRows : list BalanceRecord :=
  [ {| blockNumber := START_BLOCK_NUMBER + 1;
       holderAddress := MOCK_HOLDER;
       assetId := MOCK_ASSET;
       balance := MOCK_BALANCE |};
    {| blockNumber := START_BLOCK_NUMBER + 2;
       holderAddress := "0x011B6E24FfB0B5f5fCc564cf4183C5BBBc96D515";
       assetId := "dai-dai-stablecoin";
       balance := MOCK_BALANCE |} ].

(** The holder of 'nonexisting holder', lines 87-89. *)
Definition nonexistingHolder : string := "0xcEe284F754E854890e311e3280b767F80797180d".

Definition tokenA : BalanceRecord :=
  {| blockNumber := START_BLOCK_NUMBER;
     holderAddress := MOCK_HOLDER;
     assetId := "token-a";
     balance := MOCK_BALANCE |}.

(** A price table of one sample of the mock asset, taken at [START]. *)
Definition prices : PriceRepository.Table :=
  [ PriceRepository.toRow
      {| PriceRepository.assetId := MOCK_ASSET;
         PriceRepository.priceUsd := 1%float;
         PriceRepository.timestamp := START |} ].

Definition balances : Table := addOrUpdateMany additionalRecords (beforeEach []).

Definition added : list BN.BlockNumberRecord :=
  [ {| BN.timestamp := START; BN.blockNumber := START_BLOCK_NUMBER |};
    {| BN.timestamp := START_1h; BN.blockNumber := START_BLOCK_NUMBER + 1 |} ].

Definition block_numbers : BN.Table :=
  foldl (λ table n, (BN.add (λ _ _, true) false n table).2) [] added.


End BalanceRepositoryTest.

(* ===================================================================== *)
(** ** Sample records *)
(* ===================================================================== *)

(** Price samples at the two instants of the test's timeline, and a store
    for the block numbers. *)
Module Samples.

Definition dai_start : PriceRepository.PriceRecord :=
  {| PriceRepository.assetId := "dai-dai-stablecoin";
     PriceRepository.priceUsd := 1%float;
     PriceRepository.timestamp := BalanceRepositoryTest.START |}.

Definition dai_later : PriceRepository.PriceRecord :=
  {| PriceRepository.assetId := "dai-dai-stablecoin";
     PriceRepository.priceUsd := 1%float;
     PriceRepository.timestamp := BalanceRepositoryTest.START_1h |}.

Definition eth_start : PriceRepository.PriceRecord :=
  {| PriceRepository.assetId := "eth-ethereum";
     PriceRepository.priceUsd := 2%float;
     PriceRepository.timestamp := BalanceRepositoryTest.START |}.

(** The boundaries of a table that holds the two samples of dai. *)
Definition dai_boundaries : gmap string PriceRepository.DataBoundary :=
  {[ "dai-dai-stablecoin" :=
       {| PriceRepository.earliest := BalanceRepositoryTest.START;
          PriceRepository.latest := BalanceRepositoryTest.START_1h |} ]}.

(** A store whose [block_number] column holds an integer (§6) and nothing
    else, and that has no other constraint. *)
Definition integerColumn (table : BlockNumberRepository.Table)
  (row : BlockNumberRepository.BlockNumberRow) : bool :=
  match BlockNumberRepository.block_number row with
  | JS.Finite _ => true
  | _ => false
  end.


End Samples.

(* ===================================================================== *)
(** ** The words of the specification *)
(* ===================================================================== *)

(** The predicates in which the properties below are stated. *)

Module Stated.

Module BN := BlockNumberRepository.
Module PR := PriceRepository.
Module BR := BalanceRepository.

(** A record of a block number above [2^53], at the start of the test's
    timeline. *)
Definition beyondSafe : BN.BlockNumberRecord :=
  {| BN.timestamp := BalanceRepositoryTest.START; BN.blockNumber := 2 ^ 53 + 1 |}.


(** The store takes the chunks one after the other, each into the table
    the earlier ones have left. *)
Fixpoint acceptedInOrder (accepts : PR.Table → list PR.PriceRow → bool)
  (table : PR.Table) (chunks : list (list PR.PriceRow)) : Prop :=
  match chunks with
  | [] => True
  | c :: rest => accepts table c = true ∧ acceptedInOrder accepts (table ++ c) rest
  end.

(** The seconds of the records of one asset. *)
Definition seconds (a : string) (records : list PR.PriceRecord) : list Z :=
  (λ r, Time.toNumber (PR.timestamp r)) <$> filter (λ r, PR.assetId r = a) records.

(** [b] is the data boundary of [asset] in [records]: both ends are
    timestamps of records of the asset, and every record of the asset
    lies between them. *)
Definition isBoundary (records : list PR.PriceRecord) (asset : string)
  (b : PR.DataBoundary) : Prop :=
  (∃ r, r ∈ records ∧ PR.assetId r = asset ∧ PR.timestamp r = PR.earliest b)
  ∧ (∃ r, r ∈ records ∧ PR.assetId r = asset ∧ PR.timestamp r = PR.latest b)
  ∧ (∀ r, r ∈ records → PR.assetId r = asset →
          Time.toNumber (PR.earliest b) ≤ Time.toNumber (PR.timestamp r)
          ∧ Time.toNumber (PR.timestamp r) ≤ Time.toNumber (PR.latest b)).

(** The balance of the row of key [k], if the table has one. *)
Fixpoint lookupBalance (k : Z * string * string) (table : BR.Table) : option Z :=
  match table with
  | [] => None
  | row :: rest =>
      if decide (BR.key row = k) then Some (BR.balance row) else lookupBalance k rest
  end.

(** The balance the batch reports last for the key [k], if it reports
    one. *)
Fixpoint lastBalance (k : Z * string * string) (records : list BR.BalanceRecord)
  : option Z :=
  match records with
  | [] => None
  | r :: rest =>
      match lastBalance k rest with
      | Some b => Some b
      | None => if decide (BR.key r = k) then Some (BR.balance r) else None
      end
  end.

(** The states of the balance table: empty at first, then whatever the
    writing methods make of it. *)
Inductive reachable : BR.Table → Prop :=
| reachable_empty : reachable []
| reachable_addOrUpdateMany records table :
    reachable table → reachable (BR.addOrUpdateMany records table)
| reachable_deleteAll table :
    reachable table → reachable (BR.deleteAll table).

(** [r] is a balance row of the table with the timestamp some timeline
    entry records for its block. *)
Definition joined (timeline : list BN.BlockNumberRecord) (table : BR.Table)
  (r : BR.BalanceRecordWithTimestamp) : Prop :=
  BR.record r ∈ table
  ∧ ∃ n, n ∈ timeline
         ∧ BN.blockNumber n = BR.blockNumber (BR.record r)
         ∧ BN.timestamp n = BR.timestamp r.



End Stated.

(* ===================================================================== *)
(** * Properties *)
(* ===================================================================== *)

(** ** Numbers and their text *)

Module JSFacts.

Import JS.

Lemma Is_true_irrel (b : bool) (p q : Is_true b) : p = q.
Proof. destruct b; simpl in *; [by destruct p, q | by destruct p]. Qed.

Lemma UnixTime_eq (a b : UnixTime) : Time.toNumber a = Time.toNumber b → a = b.
Proof.
  destruct a as [x Hx], b as [y Hy]; simpl; intros ->.
  f_equal. apply Is_true_irrel.
Qed.

Lemma safe_bound (z : Z) : Is_true (isSafeInteger z) ↔ Z.abs z < 2 ^ 53.
Proof.
  unfold isSafeInteger. rewrite Is_true_true. apply Z.ltb_lt.
Qed.

(** Below [2^53] the conversion to a number is exact. *)
Lemma Number_of_bigint_safe (z : Z) :
  Is_true (isSafeInteger z) → Number_of_bigint z = Finite z.
Proof.
  intros H%safe_bound. unfold Number_of_bigint, round_binary64.
  destruct (Z.ltb_spec (Z.abs z) (2 ^ 53)) as [_|]; [|lia].
  destruct (Z.leb_spec (2 ^ 1024) (Z.abs z)) as [Hbig|_].
  - assert (2 ^ 53 < 2 ^ 1024) by (apply Z.pow_lt_mono_r; lia). lia.
  - f_equal. lia.
Qed.

Lemma negate_Number_of_bigint (p : positive) :
  negate (Number_of_bigint (Z.pos p)) = Number_of_bigint (Z.neg p).
Proof.
  unfold Number_of_bigint. change (Z.abs (Z.neg p)) with (Z.abs (Z.pos p)).
  change (Z.neg p <? 0) with true. change (Z.pos p <? 0) with false.
  change (Z.sgn (Z.pos p)) with 1. change (Z.sgn (Z.neg p)) with (-1).
  destruct (2 ^ 1024 <=? round_binary64 (Z.abs (Z.pos p))); [done|].
  unfold negate. f_equal. lia.
Qed.

(** The digits of a positive number: a string that starts with a digit and
    holds digits only. *)
Lemma digit_prefix_digits (d : Decimal.uint) :
  digit_prefix (NilEmpty.string_of_uint d) = NilEmpty.string_of_uint d.
Proof. induction d; simpl; by rewrite ?IHd. Qed.

Lemma digits_to_Number_pos (p : positive) :
  digits_to_Number (NilEmpty.string_of_uint (Pos.to_uint p))
  = Number_of_bigint (Z.pos p).
Proof.
  unfold digits_to_Number.
  pose proof (DecimalPos.Unsigned.to_uint_nonnil p) as Hnil.
  pose proof (NilZero.usu _ Hnil) as Hu.
  assert (NilZero.string_of_uint (Pos.to_uint p)
          = NilEmpty.string_of_uint (Pos.to_uint p)) as E
    by (by destruct (Pos.to_uint p)).
  rewrite E in Hu. rewrite Hu.
  unfold Z.of_uint. by rewrite DecimalPos.Unsigned.of_to.
Qed.

Lemma toString_pos (p : positive) :
  toString (Z.pos p) = NilEmpty.string_of_uint (Pos.to_uint p).
Proof.
  unfold toString; simpl.
  pose proof (DecimalPos.Unsigned.to_uint_nonnil p).
  by destruct (Pos.to_uint p).
Qed.

Lemma toString_neg (p : positive) :
  toString (Z.neg p) = String "-" (NilEmpty.string_of_uint (Pos.to_uint p)).
Proof.
  unfold toString; simpl.
  pose proof (DecimalPos.Unsigned.to_uint_nonnil p).
  by destruct (Pos.to_uint p).
Qed.

(** Unary plus reads the text of an integer as [Number] reads the
    integer. *)
Lemma StringToNumber_toString (z : Z) :
  StringToNumber (toString z) = Number_of_bigint z.
Proof.
  destruct z as [|p|p].
  - by vm_compute.
  - rewrite toString_pos, <- digits_to_Number_pos.
    pose proof (DecimalPos.Unsigned.to_uint_nonnil p).
    by destruct (Pos.to_uint p).
  - rewrite toString_neg, <- negate_Number_of_bigint, <- digits_to_Number_pos.
    done.
Qed.

Lemma parseInt_toString (z : Z) :
  parseInt (toString z) = Number_of_bigint z.
Proof.
  destruct z as [|p|p].
  - by vm_compute.
  - rewrite toString_pos, <- digits_to_Number_pos.
    rewrite <- (digit_prefix_digits (Pos.to_uint p)) at 2.
    pose proof (DecimalPos.Unsigned.to_uint_nonnil p).
    by destruct (Pos.to_uint p).
  - rewrite toString_neg, <- negate_Number_of_bigint, <- digits_to_Number_pos.
    simpl. by rewrite digit_prefix_digits.
Qed.

Lemma new_UnixTime_Finite (t : UnixTime) :
  Time.new_UnixTime (Finite (Time.toNumber t)) = Some t.
Proof.
  unfold Time.new_UnixTime.
  destruct (Is_true_dec _) as [H|H].
  - f_equal. by apply UnixTime_eq.
  - destruct H. apply t.
Qed.

(** A timestamp comes back from its text, through either reader. *)
Lemma UnixTime_of_text (t : UnixTime) :
  Time.new_UnixTime (StringToNumber (Time.toString t)) = Some t.
Proof.
  unfold Time.toString.
  rewrite StringToNumber_toString, Number_of_bigint_safe by apply t.
  apply new_UnixTime_Finite.
Qed.

Lemma UnixTime_of_parseInt (t : UnixTime) :
  Time.new_UnixTime (parseInt (Time.toString t)) = Some t.
Proof.
  unfold Time.toString.
  rewrite parseInt_toString, Number_of_bigint_safe by apply t.
  apply new_UnixTime_Finite.
Qed.

(** The text of an integer is the decimal text the store reads back. *)
Lemma int_of_toString (z : Z) :
  NilZero.int_of_string (toString z) = Some (Z.to_int z).
Proof.
  unfold toString. apply NilZero.isi.
  - destruct z; simpl; try done.
    intros [= E]. by apply DecimalPos.Unsigned.to_uint_nonnil in E.
  - destruct z; simpl; try done.
    intros [= E]. by apply DecimalPos.Unsigned.to_uint_nonnil in E.
Qed.

End JSFacts.

(** ** BlockNumberRepository *)

Module BlockNumberFacts.

Import BlockNumberRepository Stated.

Lemma BlockNumberRecord_eta (r : BlockNumberRecord) :
  {| timestamp := timestamp r; blockNumber := blockNumber r |} = r.
Proof. by destruct r. Qed.

(** What the round trip does to any record: the timestamp comes back, the
    block number goes through [Number] and [BigInt]. *)
Lemma toRecord_toRow (r : BlockNumberRecord) :
  toRecord (toRow r)
  = (b ← JS.BigInt (JS.Number_of_bigint (blockNumber r));
     Some {| timestamp := timestamp r; blockNumber := b |}).
Proof.
  unfold toRecord, toRow; simpl.
  by rewrite JSFacts.UnixTime_of_text.
Qed.

(** C2, as stated, fails: the block number [2^53 + 1] comes back as
    [2^53], because [toRow] writes it as a [number]. *)
Lemma roundtrip_loses_precision :
  toRecord (toRow beyondSafe)
  = Some {| timestamp := BalanceRepositoryTest.START; blockNumber := 2 ^ 53 |}
  ∧ toRecord (toRow beyondSafe) ≠ Some beyondSafe.
Proof.
  assert (toRecord (toRow beyondSafe)
          = Some {| timestamp := BalanceRepositoryTest.START;
                    blockNumber := 2 ^ 53 |}) as E.
  { rewrite toRecord_toRow. by vm_compute. }
  split; [exact E|].
  rewrite E. intros H. apply (f_equal (fmap blockNumber)) in H.
  by vm_compute in H.
Qed.

(** C2, amended: a record whose block number is a safe integer (below
    [2^53] in magnitude) comes back from its row as it was. *)
Theorem toRecord_toRow_safe (r : BlockNumberRecord) :
  Is_true (JS.isSafeInteger (blockNumber r)) →
  toRecord (toRow r) = Some r.
Proof.
  intros Hsafe. rewrite toRecord_toRow.
  rewrite JSFacts.Number_of_bigint_safe by done. simpl.
  by rewrite BlockNumberRecord_eta.
Qed.

Lemma toRecord_toRow_safe_witness :
  Is_true (JS.isSafeInteger 123456)
  ∧ toRecord (toRow {| timestamp := BalanceRepositoryTest.START;
                       blockNumber := 123456 |})
    = Some {| timestamp := BalanceRepositoryTest.START; blockNumber := 123456 |}.
Proof.
  split; [exact I|].
  apply (toRecord_toRow_safe
           {| timestamp := BalanceRepositoryTest.START; blockNumber := 123456 |}).
  exact I.
Defined.






(** The test's timeline, once added, reads back as it was written. *)
Example getAll_block_numbers :
  getAll BalanceRepositoryTest.block_numbers = Some BalanceRepositoryTest.added.
Proof. by vm_compute. Qed.

End BlockNumberFacts.

(** ** PriceRepository *)

Module PriceFacts.

Import PriceRepository Stated.

(** *** Lookups *)

Lemma filter_none {A} (P : A → Prop) `{!∀ x, Decision (P x)} (l : list A) :
  (∀ x, x ∈ l → ¬ P x) → filter P l = [].
Proof.
  induction l as [|x l IH]; intros Hl; [done|].
  rewrite filter_cons_False by (apply Hl; left).
  apply IH. intros y Hy. apply Hl. by right.
Qed.

Lemma getByTimestamp_unknown (t : UnixTime) (table : Table) :
  (∀ row, row ∈ table → unix_timestamp row ≠ Time.toString t) →
  getByTimestamp t table = Some [].
Proof. intros H. unfold getByTimestamp. cbv zeta. by rewrite filter_none. Qed.

Lemma getByToken_unknown (asset : string) (table : Table) :
  (∀ row, row ∈ table → asset_id row ≠ asset) →
  getByToken asset table = Some [].
Proof. intros H. unfold getByToken. cbv zeta. by rewrite filter_none. Qed.

(** *** Chunks *)

Lemma chunk_concat {A} (n : nat) (l : list A) : concat (chunk (S n) l) = l.
Proof.
  remember (S n) as size eqn:E. revert n E.
  funelim (chunk size l); intros m E; try done.
  simp chunk. simpl. rewrite (H m E). by rewrite take_drop.
Qed.

Lemma chunk_lengths {A} (size : nat) (l : list A) :
  Forall (λ c, (0 < length c ≤ size)%nat) (chunk size l).
Proof.
  funelim (chunk size l); simp chunk; [done..|].
  constructor; [|done].
  simpl. rewrite length_take. lia.
Qed.

(** *** addMany *)

Section Store.

Variable accepts : Table → list PriceRow → bool.

Lemma insertChunks_settles (chunks : list (list PriceRow)) :
  ∀ table inserted,
    match insertChunks accepts table inserted chunks with
    | Fulfilled _ table' =>
        table' = table ++ concat chunks ∧ acceptedInOrder accepts table chunks
    | Rejected done =>
        ∃ before failing rest,
          chunks = before ++ failing :: rest
          ∧ done = inserted ++ before
          ∧ acceptedInOrder accepts table before
          ∧ accepts (table ++ concat before) failing = false
    end.
Proof.
  induction chunks as [|c rest IH]; intros table inserted; simpl.
  - by rewrite app_nil_r.
  - destruct (accepts table c) eqn:Hc.
    + specialize (IH (table ++ c) (inserted ++ [c])).
      destruct (insertChunks _ _ _ rest) as [[] table'|done].
      * destruct IH as [-> Hall]. by rewrite <- app_assoc.
      * destruct IH as (before & failing & rest' & -> & -> & Hall & Hno).
        exists (c :: before), failing, rest'. simpl.
        rewrite <- !app_assoc in *. done.
    + exists [], c, rest. simpl. by rewrite !app_nil_r.
Qed.

End Store.

(** C7: [addMany] cuts the rows into consecutive batches of at most
    10,000, none empty; when the store takes every batch the call is
    fulfilled with the number of records and the table holds all the
    rows; otherwise it is rejected at the first batch the store does not
    take, the batches before it inserted and none after it tried. *)
Theorem addMany_in_batches (accepts : Table → list PriceRow → bool)
  (prices : list PriceRecord) (table : Table) :
  let rows := toRow <$> prices in
  let batches := chunk 10000 rows in
  concat batches = rows
  ∧ Forall (λ c, (0 < length c ≤ 10000)%nat) batches
  ∧ match addMany accepts prices table with
    | Fulfilled count table' =>
        count = length prices
        ∧ table' = table ++ rows
        ∧ acceptedInOrder accepts table batches
    | Rejected inserted =>
        ∃ failing rest,
          batches = inserted ++ failing :: rest
          ∧ acceptedInOrder accepts table inserted
          ∧ accepts (table ++ concat inserted) failing = false
    end.
Proof.
  intros rows batches.
  assert (concat batches = rows) as Hcat by exact (chunk_concat 9999 rows).
  split; [exact Hcat|]. split; [apply chunk_lengths|].
  unfold addMany, batchInsert. fold rows. fold batches.
  pose proof (insertChunks_settles accepts batches table []) as H.
  destruct (insertChunks accepts table [] batches) as [[] table'|done].
  - destruct H as [-> Hall]. rewrite Hcat.
    repeat split; [|done]. unfold rows. by rewrite length_fmap.
  - destruct H as (before & failing & rest & Hb & -> & Hall & Hno).
    simpl. by exists failing, rest.
Qed.

(** One record, and a store that takes every statement or none. *)
Example addMany_one_record :
  let sample := {| assetId := "dai-dai-stablecoin"; priceUsd := 1%float;
                   timestamp := BalanceRepositoryTest.START |} in
  addMany (λ _ _, true) [sample] []
  = Fulfilled 1%nat [ {| asset_id := "dai-dai-stablecoin"; price_usd := 1%float;
                         unix_timestamp := "1652745600" |} ]
  ∧ addMany (λ _ _, false) [sample] [] = Rejected []
  ∧ addMany (λ _ _, false) [] [] = Fulfilled 0%nat [].
Proof. by vm_compute. Qed.

Example chunk_of_five : chunk 2 [1; 2; 3; 4; 5] = [[1; 2]; [3; 4]; [5]].
Proof. by vm_compute. Qed.

(** *** calcDataBoundaries *)

Lemma column_value_toString (z : Z) : column_value (JS.toString z) = Some z.
Proof.
  unfold column_value. rewrite JSFacts.int_of_toString. simpl.
  by rewrite DecimalZ.of_to.
Qed.

Lemma filter_toRow (a : string) (records : list PriceRecord) :
  filter (λ row, asset_id row = a) (toRow <$> records)
  = toRow <$> filter (λ r, assetId r = a) records.
Proof.
  induction records as [|r records IH]; [done|].
  rewrite fmap_cons, !filter_cons. simpl.
  destruct (decide (assetId r = a)); by rewrite IH.
Qed.

Lemma foldr_min_least (t : Z) (ts : list Z) :
  foldr Z.min t ts ∈ t :: ts ∧ ∀ x, x ∈ t :: ts → foldr Z.min t ts ≤ x.
Proof.
  induction ts as [|y ts [Hin Hle]]; simpl.
  - split; [left|]. intros x ->%list_elem_of_singleton. lia.
  - split.
    + destruct (Z.min_spec y (foldr Z.min t ts)) as [[_ ->]|[_ ->]].
      * right; left.
      * apply elem_of_cons in Hin as [->|Hin]; [left|right; by right].
    + intros x Hx.
      assert (x = y ∨ x ∈ t :: ts) as [->|Hx'].
      { apply elem_of_cons in Hx as [->|Hx]; [right; left|].
        apply elem_of_cons in Hx as [->|Hx]; [by left|right; by right]. }
      * lia.
      * specialize (Hle x Hx'). lia.
Qed.

Lemma foldr_max_greatest (t : Z) (ts : list Z) :
  foldr Z.max t ts ∈ t :: ts ∧ ∀ x, x ∈ t :: ts → x ≤ foldr Z.max t ts.
Proof.
  induction ts as [|y ts [Hin Hle]]; simpl.
  - split; [left|]. intros x ->%list_elem_of_singleton. lia.
  - split.
    + destruct (Z.max_spec y (foldr Z.max t ts)) as [[_ ->]|[_ ->]].
      * apply elem_of_cons in Hin as [->|Hin]; [left|right; by right].
      * right; left.
    + intros x Hx.
      assert (x = y ∨ x ∈ t :: ts) as [->|Hx'].
      { apply elem_of_cons in Hx as [->|Hx]; [right; left|].
        apply elem_of_cons in Hx as [->|Hx]; [by left|right; by right]. }
      * lia.
      * specialize (Hle x Hx'). lia.
Qed.

Lemma elem_of_seconds (a : string) (records : list PriceRecord) (z : Z) :
  z ∈ seconds a records
  ↔ ∃ r, r ∈ records ∧ assetId r = a ∧ Time.toNumber (timestamp r) = z.
Proof.
  unfold seconds. rewrite list_elem_of_fmap. split.
  - intros (r & -> & [Ha Hr]%list_elem_of_filter). by exists r.
  - intros (r & Hr & Ha & <-). exists r. split; [done|].
    by apply list_elem_of_filter.
Qed.

Lemma group_toRow (a : string) (records : list PriceRecord) :
  group (toRow <$> records) a
  = match seconds a records with
    | [] => None
    | t :: ts =>
        Some {| Aggregate.asset_id := a;
                Aggregate.min := JS.toString (foldr Z.min t ts);
                Aggregate.max := JS.toString (foldr Z.max t ts) |}
    end.
Proof.
  unfold group. rewrite filter_toRow, <- list_fmap_compose.
  assert (unix_timestamp ∘ toRow <$> filter (λ r, assetId r = a) records
          = JS.toString <$> seconds a records) as ->.
  { unfold seconds. by rewrite <- list_fmap_compose. }
  rewrite (mapM_fmap_Some column_value JS.toString) by apply column_value_toString.
  done.
Qed.

(** The entry computed for an asset of the table is its boundary. *)
Lemma boundary_of_group (a : string) (records : list PriceRecord) :
  a ∈ assetId <$> records →
  ∃ b, (group (toRow <$> records) a ≫= boundary) = Some (a, b)
       ∧ isBoundary records a b.
Proof.
  intros (r0 & -> & Hr0)%list_elem_of_fmap.
  rewrite group_toRow.
  assert (Time.toNumber (timestamp r0) ∈ seconds (assetId r0) records) as Hne
    by (apply elem_of_seconds; by exists r0).
  destruct (seconds (assetId r0) records) as [|t ts] eqn:Hs;
    [by apply elem_of_nil in Hne|].
  destruct (foldr_min_least t ts) as [Hmin Hleast].
  destruct (foldr_max_greatest t ts) as [Hmax Hgreatest].
  rewrite <- Hs in Hmin, Hmax, Hleast, Hgreatest.
  apply elem_of_seconds in Hmin as (rmin & Hrmin & Hamin & Emin).
  apply elem_of_seconds in Hmax as (rmax & Hrmax & Hamax & Emax).
  exists {| earliest := timestamp rmin; latest := timestamp rmax |}.
  split.
  - simpl. unfold boundary; simpl.
    rewrite <- Emin, <- Emax.
    change (JS.toString (Time.toNumber ?t)) with (Time.toString t).
    by rewrite !JSFacts.UnixTime_of_parseInt.
  - repeat split; simpl.
    + by exists rmin.
    + by exists rmax.
    + rewrite Emin. apply Hleast, elem_of_seconds. by exists r.
    + rewrite Emax. apply Hgreatest, elem_of_seconds. by exists r.
Qed.

Lemma mapM_bind_entries {Q : string → DataBoundary → Prop}
  (g : string → option Aggregate.Row) (assets : list string) :
  (∀ a, a ∈ assets → ∃ b, (g a ≫= boundary) = Some (a, b) ∧ Q a b) →
  ∃ entries, (mapM g assets ≫= mapM boundary) = Some entries
             ∧ entries.*1 = assets
             ∧ ∀ a b, (a, b) ∈ entries → Q a b.
Proof.
  induction assets as [|a assets IH]; intros H.
  - exists []. split; [done|]. split; [done|]. by intros a b ?%elem_of_nil.
  - destruct (H a) as (b & Hg & Hq); [left|].
    destruct IH as (entries & Hm & Hk & Hall).
    { intros a' Ha'. apply H. by right. }
    exists ((a, b) :: entries).
    destruct (g a) as [row|] eqn:Hga; [|done]. simpl in Hg.
    destruct (mapM g assets) as [rows|] eqn:Hrows; [|done]. simpl in Hm.
    split; [|split].
    + simpl. rewrite Hga; simpl. rewrite Hrows; simpl.
      rewrite Hg; simpl. by rewrite Hm.
    + by rewrite fmap_cons, Hk.
    + intros a' b' [[= -> ->]|Hin]%elem_of_cons; [done|by apply Hall].
Qed.

Lemma new_Map_snoc {V} (entries : list (string * V)) (k : string) (v : V) :
  new_Map (entries ++ [(k, v)]) = <[k := v]> (new_Map entries).
Proof. unfold new_Map. by rewrite foldl_snoc. Qed.

Lemma new_Map_lookup_Some {V} (entries : list (string * V)) (k : string) (v : V) :
  new_Map entries !! k = Some v → (k, v) ∈ entries.
Proof.
  induction entries as [|[k' v'] entries IH] using rev_ind; [done|].
  rewrite new_Map_snoc. destruct (decide (k' = k)) as [->|Hne].
  - rewrite lookup_insert_eq. intros [= ->]. apply elem_of_app; right; left.
  - rewrite lookup_insert_ne by done. intros H. apply elem_of_app; left; auto.
Qed.

Lemma new_Map_dom {V} (entries : list (string * V)) :
  dom (new_Map entries) = list_to_set entries.*1.
Proof.
  induction entries as [|[k' v'] entries IH] using rev_ind; [done|].
  rewrite new_Map_snoc, dom_insert_L, IH, fmap_app, list_to_set_app_L.
  simpl. set_solver.
Qed.

(** C8: on a table written from records, [calcDataBoundaries] is
    fulfilled with a map whose keys are exactly the assets of the table,
    each mapped to the least and the greatest timestamp recorded for it,
    the earliest never after the latest. *)
Theorem calcDataBoundaries_boundaries (records : list PriceRecord) :
  ∃ m, calcDataBoundaries (toRow <$> records) = Some m
       ∧ dom m = list_to_set (assetId <$> records)
       ∧ ∀ a b, m !! a = Some b →
           isBoundary records a b
           ∧ Time.toNumber (earliest b) ≤ Time.toNumber (latest b).
Proof.
  set (table := toRow <$> records).
  assert (asset_id <$> table = assetId <$> records) as Hassets.
  { unfold table. by rewrite <- list_fmap_compose. }
  destruct (mapM_bind_entries (Q := isBoundary records) (group table)
              (remove_dups (asset_id <$> table))) as (entries & Hm & Hk & Hall).
  { intros a Ha. apply (proj1 (elem_of_remove_dups _ _)) in Ha.
    rewrite Hassets in Ha. by apply boundary_of_group. }
  exists (new_Map entries). split; [|split].
  - unfold calcDataBoundaries, minMaxGroupByAsset.
    destruct (mapM (group table) _) as [rows|]; [|done].
    simpl in *. by rewrite Hm.
  - rewrite new_Map_dom, Hk, Hassets.
    apply set_eq. intros a.
    by rewrite !elem_of_list_to_set, elem_of_remove_dups.
  - intros a b Hab%new_Map_lookup_Some.
    pose proof (Hall a b Hab) as Hb. split; [done|].
    destruct Hb as ((r & Hr & Ha & Hr') & _ & Hbetween).
    specialize (Hbetween r Hr Ha). lia.
Qed.

(** Two assets, one of them sampled twice. *)
Example calcDataBoundaries_two_assets :
  let sample a t := {| assetId := a; priceUsd := 1%float; timestamp := t |} in
  calcDataBoundaries
    (toRow <$> [ sample "a" BalanceRepositoryTest.START_1h;
                 sample "b" BalanceRepositoryTest.START_1h;
                 sample "a" BalanceRepositoryTest.START ])
  = Some {[ "a" := {| earliest := BalanceRepositoryTest.START;
                      latest := BalanceRepositoryTest.START_1h |};
            "b" := {| earliest := BalanceRepositoryTest.START_1h;
                      latest := BalanceRepositoryTest.START_1h |} ]}.
Proof. by vm_compute. Qed.

End PriceFacts.

(** ** BalanceRepository *)

Module BalanceFacts.

Import BalanceRepository Stated.
Module PR := PriceRepository.

(** *** One upsert *)

Lemma key_setBalance (row : BalanceRecord) (b : Z) : key (setBalance row b) = key row.
Proof. done. Qed.

Lemma setBalance_same_key (row r : BalanceRecord) :
  key row = key r → setBalance row (balance r) = r.
Proof. destruct row, r; unfold key, setBalance; simpl. by intros [= -> -> ->]. Qed.

Lemma setBalance_setBalance (row : BalanceRecord) (b b' : Z) :
  setBalance (setBalance row b) b' = setBalance row b'.
Proof. done. Qed.

Lemma upsert_absent (r : BalanceRecord) (table : Table) :
  key r ∉ key <$> table → upsert r table = table ++ [r].
Proof.
  induction table as [|row rest IH]; [done|]; simpl.
  intros H. apply not_elem_of_cons in H as [Hne Hrest].
  destruct (decide (key row = key r)); [congruence|].
  by rewrite IH.
Qed.

Lemma keys_upsert (r : BalanceRecord) (table : Table) :
  key <$> upsert r table
  = if decide (key r ∈ key <$> table) then key <$> table
    else (key <$> table) ++ [key r].
Proof.
  induction table as [|row rest IH].
  - rewrite decide_False by apply not_elem_of_nil. done.
  - cbn [upsert]. rewrite fmap_cons.
    destruct (decide (key row = key r)) as [E|Hne]; rewrite fmap_cons.
    + rewrite decide_True by (rewrite E; left). by rewrite key_setBalance.
    + rewrite IH. destruct (decide (key r ∈ key <$> rest)) as [Hin|Hout].
      * rewrite decide_True by (by right). done.
      * rewrite decide_False; [done|].
        intros [?|?]%elem_of_cons; congruence.
Qed.

Lemma upsert_present (r r' : BalanceRecord) (table : Table) :
  key r ∈ key <$> table → key r ∈ key <$> upsert r' table.
Proof.
  intros H. rewrite keys_upsert. case_decide; [done|].
  apply elem_of_app. by left.
Qed.

Lemma upsert_own_key (r : BalanceRecord) (table : Table) :
  key r ∈ key <$> upsert r table.
Proof.
  rewrite keys_upsert. case_decide; [done|].
  apply elem_of_app. right. left.
Qed.

Lemma upsert_fixed_present (r : BalanceRecord) (table : Table) :
  upsert r table = table → key r ∈ key <$> table.
Proof.
  intros E. destruct (decide (key r ∈ key <$> table)) as [|Hout]; [done|].
  rewrite upsert_absent in E by done.
  apply (f_equal length) in E. rewrite length_app in E. simpl in E. lia.
Qed.

(** A later upsert of the same key makes the earlier one disappear. *)
Lemma upsert_absorb (r r' : BalanceRecord) (table : Table) :
  key r = key r' → upsert r' (upsert r table) = upsert r' table.
Proof.
  intros E. induction table as [|row rest IH]; simpl.
  - rewrite decide_True by done. by rewrite setBalance_same_key.
  - destruct (decide (key row = key r)) as [Er|Hne]; simpl.
    + rewrite key_setBalance.
      rewrite !decide_True by congruence. done.
    + rewrite !decide_False by congruence. by rewrite IH.
Qed.

(** Upserts of two keys commute once the first key is in the table. *)
Lemma upsert_comm (r r' : BalanceRecord) (table : Table) :
  key r ≠ key r' → key r ∈ key <$> table →
  upsert r (upsert r' table) = upsert r' (upsert r table).
Proof.
  intros Hne. induction table as [|row rest IH]; intros Hin.
  - by apply elem_of_nil in Hin.
  - simpl. destruct (decide (key row = key r')) as [E'|N'];
      destruct (decide (key row = key r)) as [E|N]; simpl;
      rewrite ?key_setBalance.
    + congruence.
    + rewrite decide_False by done. rewrite decide_True by done. done.
    + rewrite decide_True by done. rewrite decide_False by done. done.
    + rewrite !decide_False by done. rewrite IH; [done|].
      apply elem_of_cons in Hin as [?|?]; [congruence|done].
Qed.

Lemma lookupBalance_upsert (k : Z * string * string) (r : BalanceRecord)
  (table : Table) :
  lookupBalance k (upsert r table)
  = if decide (key r = k) then Some (balance r) else lookupBalance k table.
Proof.
  induction table as [|row rest IH]; simpl.
  - done.
  - destruct (decide (key row = key r)) as [E|N]; simpl.
    + rewrite key_setBalance.
      destruct (decide (key r = k)) as [<-|Nk].
      * by rewrite decide_True.
      * rewrite !decide_False by congruence. done.
    + rewrite IH. destruct (decide (key row = k)) as [<-|]; [|done].
      by rewrite decide_False.
Qed.

(** *** A batch *)

Lemma addOrUpdateMany_cons (r : BalanceRecord) (records : list BalanceRecord)
  (table : Table) :
  addOrUpdateMany (r :: records) table = addOrUpdateMany records (upsert r table).
Proof. done. Qed.

Lemma addOrUpdateMany_present (r : BalanceRecord) (records : list BalanceRecord) :
  ∀ table, key r ∈ key <$> table → key r ∈ key <$> addOrUpdateMany records table.
Proof.
  induction records as [|r' records IH]; intros table H; [done|].
  rewrite addOrUpdateMany_cons. by apply IH, upsert_present.
Qed.

Lemma addOrUpdateMany_absorbs (r : BalanceRecord) (records : list BalanceRecord) :
  key r ∈ key <$> records →
  ∀ table, key r ∈ key <$> table →
    addOrUpdateMany records (upsert r table) = addOrUpdateMany records table.
Proof.
  induction records as [|r' records IH]; intros Hin table Ht.
  - by apply elem_of_nil in Hin.
  - rewrite !addOrUpdateMany_cons.
    destruct (decide (key r = key r')) as [E|N].
    + by rewrite upsert_absorb.
    + rewrite <- (upsert_comm r r') by done.
      apply IH; [|by apply upsert_present].
      apply elem_of_cons in Hin as [?|?]; [congruence|done].
Qed.

Lemma addOrUpdateMany_keeps (r : BalanceRecord) (records : list BalanceRecord) :
  key r ∉ key <$> records →
  ∀ table, upsert r table = table →
    upsert r (addOrUpdateMany records table) = addOrUpdateMany records table.
Proof.
  induction records as [|r' records IH]; intros Hout table Hfix; [done|].
  apply not_elem_of_cons in Hout as [N Hout].
  rewrite addOrUpdateMany_cons. apply IH; [done|].
  rewrite upsert_comm by (by try apply upsert_fixed_present).
  by rewrite Hfix.
Qed.

(** C3: a batch applied twice leaves the table the first application
    left. *)
Theorem addOrUpdateMany_idempotent (records : list BalanceRecord) (table : Table) :
  addOrUpdateMany records (addOrUpdateMany records table)
  = addOrUpdateMany records table.
Proof.
  revert table. induction records as [|r records IH]; intros table; [done|].
  rewrite !addOrUpdateMany_cons.
  destruct (decide (key r ∈ key <$> records)) as [Hin|Hout].
  - rewrite addOrUpdateMany_absorbs; [apply IH|done|].
    apply addOrUpdateMany_present, upsert_own_key.
  - rewrite addOrUpdateMany_keeps; [apply IH|done|].
    by apply upsert_absorb.
Qed.

(** The model against the expectations of the test suite, lines 76-199. *)
Example addOrUpdateMany_tests :
  let table := BalanceRepositoryTest.beforeEach [] in
  getAll table = BalanceRepositoryTest.DATA
  ∧ getByHolderAndAsset BalanceRepositoryTest.MOCK_HOLDER
      BalanceRepositoryTest.MOCK_ASSET table = BalanceRepositoryTest.DATA
  ∧ getByHolderAndAsset BalanceRepositoryTest.MOCK_HOLDER "nonexistent-token" table = []
  ∧ getAll (addOrUpdateMany BalanceRepositoryTest.newRows table)
    = BalanceRepositoryTest.DATA ++ BalanceRepositoryTest.newRows
  ∧ getAll (addOrUpdateMany BalanceRepositoryTest.DATA table) = BalanceRepositoryTest.DATA
  ∧ length (getAll (addOrUpdateMany BalanceRepositoryTest.mixedRows table)) = 3%nat
  ∧ BalanceRepositoryTest.mixedRows
    ⊆ getAll (addOrUpdateMany BalanceRepositoryTest.mixedRows table)
  ∧ getAll (deleteAll table) = [].
Proof.
  repeat split; try by vm_compute.
  intros r Hr. vm_compute in Hr |- *.
  apply elem_of_cons in Hr as [->|Hr]; [right; left|].
  apply list_elem_of_singleton in Hr as ->. right; right; left.
Qed.

(** *** Keys *)

Lemma upsert_NoDup (r : BalanceRecord) (table : Table) :
  NoDup (key <$> table) → NoDup (key <$> upsert r table).
Proof.
  intros H. rewrite keys_upsert. case_decide as Hin; [done|].
  apply NoDup_app. split; [done|]. split; [|apply NoDup_singleton].
  intros k Hk ->%list_elem_of_singleton. done.
Qed.

Lemma addOrUpdateMany_NoDup (records : list BalanceRecord) :
  ∀ table, NoDup (key <$> table) → NoDup (key <$> addOrUpdateMany records table).
Proof.
  induction records as [|r records IH]; intros table H; [done|].
  rewrite addOrUpdateMany_cons. by apply IH, upsert_NoDup.
Qed.

(** Every state the table reaches has one row per key at most. *)
Lemma reachable_NoDup (table : Table) : reachable table → NoDup (key <$> table).
Proof.
  induction 1 as [|records table _ IH|table _ _].
  - apply NoDup_nil_2.
  - by apply addOrUpdateMany_NoDup.
  - apply NoDup_nil_2.
Qed.

Lemma keys_addOrUpdateMany_prefix (records : list BalanceRecord) :
  ∀ table, ∃ new, key <$> addOrUpdateMany records table = (key <$> table) ++ new.
Proof.
  induction records as [|r records IH]; intros table.
  - exists []. by rewrite app_nil_r.
  - rewrite addOrUpdateMany_cons. destruct (IH (upsert r table)) as [new ->].
    rewrite keys_upsert. case_decide.
    + by exists new.
    + exists (key r :: new). by rewrite <- app_assoc.
Qed.

Lemma keys_addOrUpdateMany_set (records : list BalanceRecord) :
  ∀ table,
    list_to_set (key <$> addOrUpdateMany records table)
    =@{gset (Z * string * string)}
    list_to_set (key <$> table) ∪ list_to_set (key <$> records).
Proof.
  induction records as [|r records IH]; intros table.
  - simpl. by rewrite (right_id_L ∅ (∪)).
  - rewrite addOrUpdateMany_cons, IH, keys_upsert, fmap_cons, list_to_set_cons.
    case_decide as Hin.
    + apply (elem_of_list_to_set (C := gset _)) in Hin.
      revert Hin. clear IH.
      generalize (list_to_set (key <$> table) : gset (Z * string * string)).
      generalize (list_to_set (key <$> records) : gset (Z * string * string)).
      generalize (key r). clear. set_solver.
    + rewrite list_to_set_app_L. clear IH Hin.
      generalize (list_to_set (key <$> table) : gset (Z * string * string)).
      generalize (list_to_set (key <$> records) : gset (Z * string * string)).
      simpl. generalize (key r). clear. set_solver.
Qed.

Lemma lookupBalance_addOrUpdateMany (k : Z * string * string)
  (records : list BalanceRecord) :
  ∀ table,
    lookupBalance k (addOrUpdateMany records table)
    = match lastBalance k records with
      | Some b => Some b
      | None => lookupBalance k table
      end.
Proof.
  induction records as [|r records IH]; intros table; [done|].
  rewrite addOrUpdateMany_cons, IH, lookupBalance_upsert. simpl.
  destruct (lastBalance k records); [done|]. by case_decide.
Qed.

(** C4: in every state the table reaches, before and after a batch, no
    two rows share a key; the rows that were there keep their place, each
    key of the batch holds the balance the batch reports last for it, the
    other keys hold what they held, and the table has one row per key of
    the table or of the batch. *)
Theorem addOrUpdateMany_one_row_per_key (records : list BalanceRecord)
  (table : Table) :
  reachable table →
  NoDup (key <$> table)
  ∧ NoDup (key <$> addOrUpdateMany records table)
  ∧ (∃ new, key <$> addOrUpdateMany records table = (key <$> table) ++ new)
  ∧ (∀ k, lookupBalance k (addOrUpdateMany records table)
          = match lastBalance k records with
            | Some b => Some b
            | None => lookupBalance k table
            end)
  ∧ length (addOrUpdateMany records table)
    = size (list_to_set (key <$> table) ∪ list_to_set (key <$> records)
            : gset (Z * string * string)).
Proof.
  intros Hreach. pose proof (reachable_NoDup table Hreach) as Hnd.
  pose proof (addOrUpdateMany_NoDup records table Hnd) as Hnd'.
  split; [done|]. split; [done|].
  split; [apply keys_addOrUpdateMany_prefix|].
  split; [intros k; apply lookupBalance_addOrUpdateMany|].
  rewrite <- keys_addOrUpdateMany_set, size_list_to_set by done.
  by rewrite length_fmap.
Qed.

(** The batch of the test 'mixed: existing and new rows'. *)
Lemma addOrUpdateMany_one_row_per_key_witness :
  reachable (BalanceRepositoryTest.beforeEach [])
  ∧ length (addOrUpdateMany BalanceRepositoryTest.mixedRows
              (BalanceRepositoryTest.beforeEach []))
    = size (list_to_set (key <$> BalanceRepositoryTest.beforeEach [])
            ∪ list_to_set (key <$> BalanceRepositoryTest.mixedRows)
            : gset (Z * string * string)).
Proof.
  assert (reachable (BalanceRepositoryTest.beforeEach [])) as H
    by (repeat constructor).
  split; [exact H|].
  apply (addOrUpdateMany_one_row_per_key BalanceRepositoryTest.mixedRows
           (BalanceRepositoryTest.beforeEach []) H).
Defined.

(** *** Lookups *)

(** C9: a lookup whose key matches no row is fulfilled with the empty
    sequence, in [getByBlock], [getByHolderAndAsset], [getByTimestamp] and
    [getByToken] alike. *)
Theorem lookup_unknown_key_empty
  (balances : Table) (number : Z) (holder asset : string)
  (prices : PR.Table) (t : UnixTime) (token : string) :
  Forall (λ row, blockNumber row ≠ number) balances →
  Forall (λ row, ¬ (holderAddress row = holder ∧ assetId row = asset)) balances →
  Forall (λ row, PR.unix_timestamp row ≠ Time.toString t) prices →
  Forall (λ row, PR.asset_id row ≠ token) prices →
  getByBlock number balances = []
  ∧ getByHolderAndAsset holder asset balances = []
  ∧ PR.getByTimestamp t prices = Some []
  ∧ PR.getByToken token prices = Some [].
Proof.
  rewrite !Forall_forall. intros Hblock Hpair Htime Htoken.
  split; [by apply PriceFacts.filter_none|].
  split; [by apply PriceFacts.filter_none|].
  split.
  - by apply PriceFacts.getByTimestamp_unknown.
  - by apply PriceFacts.getByToken_unknown.
Qed.

(** The lookups of the tests 'unknown block' and 'nonexisting holder', and
    a price table without the timestamp and the token looked up. *)
Lemma lookup_unknown_key_empty_witness :
  getByBlock (BalanceRepositoryTest.START_BLOCK_NUMBER + 1000)
    (BalanceRepositoryTest.beforeEach []) = []
  ∧ getByHolderAndAsset BalanceRepositoryTest.nonexistingHolder
      BalanceRepositoryTest.MOCK_ASSET (BalanceRepositoryTest.beforeEach []) = []
  ∧ PR.getByTimestamp BalanceRepositoryTest.START_1h BalanceRepositoryTest.prices
    = Some []
  ∧ PR.getByToken "nonexistent-token" BalanceRepositoryTest.prices = Some [].
Proof.
  apply (lookup_unknown_key_empty
           (BalanceRepositoryTest.beforeEach [])
           (BalanceRepositoryTest.START_BLOCK_NUMBER + 1000)
           BalanceRepositoryTest.nonexistingHolder BalanceRepositoryTest.MOCK_ASSET
           BalanceRepositoryTest.prices BalanceRepositoryTest.START_1h
           "nonexistent-token").
  - repeat constructor; by vm_compute.
  - repeat constructor; intros [H _]; revert H; by vm_compute.
  - repeat constructor; by vm_compute.
  - repeat constructor; by vm_compute.
Defined.

(** *** getLatestPerHolder *)

Lemma groupByHolder_snoc (rows : list BalanceRecordWithTimestamp)
  (r : BalanceRecordWithTimestamp) :
  groupByHolder (rows ++ [r])
  = <[holder r := default [] (groupByHolder rows !! holder r) ++ [r]]>
      (groupByHolder rows).
Proof. unfold groupByHolder. by rewrite foldl_snoc. Qed.

(** A holder is mapped to its rows, in their order, and is absent when it
    has none. *)
Lemma lookup_groupByHolder (rows : list BalanceRecordWithTimestamp) (h : string) :
  groupByHolder rows !! h
  = match filter (λ r, holder r = h) rows with
    | [] => None
    | l => Some l
    end.
Proof.
  induction rows as [|r rows IH] using rev_ind; [done|].
  rewrite groupByHolder_snoc, filter_app.
  destruct (decide (holder r = h)) as [<-|Hne].
  - rewrite lookup_insert_eq, IH, filter_cons_True, filter_nil by done.
    by destruct (filter _ rows).
  - rewrite lookup_insert_ne, IH, filter_cons_False, filter_nil, app_nil_r by done.
    done.
Qed.

Lemma elem_of_joinBlockNumbers (timeline : list BN.BlockNumberRecord)
  (table : Table) (r : BalanceRecordWithTimestamp) :
  r ∈ joinBlockNumbers timeline table ↔ joined timeline table r.
Proof.
  unfold joinBlockNumbers, joined. rewrite list_elem_of_bind. split.
  - intros (row & (n & Hr%list_elem_of_singleton & Hn)%list_elem_of_bind & Hrow).
    apply list_elem_of_filter in Hn as [Hb Hn]. subst r; simpl.
    split; [done|]. by exists n.
  - intros (Hrow & n & Hn & Hb & Ht). exists (record r). split; [|done].
    apply list_elem_of_bind. exists n. split.
    + rewrite Ht. destruct r; simpl. left.
    + by apply list_elem_of_filter.
Qed.

(** The rows of the result, holder by holder, whatever rows are taken for
    the latest. *)
Lemma elem_of_getLatestPerHolder
  (isLatest : list BN.BlockNumberRecord → Table → BalanceRecordWithTimestamp → bool)
  (timeline : list BN.BlockNumberRecord) (table : Table) (h : string)
  (r : BalanceRecordWithTimestamp) :
  (∃ rows, getLatestPerHolder isLatest timeline table !! h = Some rows ∧ r ∈ rows)
  ↔ holder r = h ∧ joined timeline table r ∧ Is_true (isLatest timeline table r).
Proof.
  unfold getLatestPerHolder. rewrite lookup_groupByHolder.
  rewrite <- elem_of_joinBlockNumbers.
  set (kept := filter (λ r, Is_true (isLatest timeline table r))
                      (joinBlockNumbers timeline table)).
  assert (holder r = h
          ∧ r ∈ joinBlockNumbers timeline table
          ∧ Is_true (isLatest timeline table r)
          ↔ r ∈ filter (λ r, holder r = h) kept) as ->.
  { unfold kept. rewrite !list_elem_of_filter. naive_solver. }
  destruct (filter _ kept) as [|x l].
  - split; [by intros (? & ? & ?)|by intros ?%elem_of_nil].
  - split; [by intros (? & [= <-] & ?)|]. intros H. by eexists.
Qed.




(** The two readings per holder and asset part on other states: with the
    test's two rows of dai and only the first block on the timeline, the
    reading by timestamp returns the row of that block and the reading by
    block returns nothing. *)
Lemma readings_differ :
  getLatestPerHolder latestOfAssetByTimestamp
    [hd Stated.beyondSafe BalanceRepositoryTest.added] BalanceRepositoryTest.DATA
  ≠ getLatestPerHolder latestOfAssetByBlock
      [hd Stated.beyondSafe BalanceRepositoryTest.added] BalanceRepositoryTest.DATA.
Proof.
  intros H.
  apply (f_equal (λ m, length <$> m !! BalanceRepositoryTest.MOCK_HOLDER)) in H.
  by vm_compute in H.
Qed.




(** C10: every row of the result is a row of the balance table, with the
    timestamp a timeline entry records for the row's block. *)
Theorem getLatestPerHolder_timestamp
  (isLatest : list BN.BlockNumberRecord → Table → BalanceRecordWithTimestamp → bool)
  (timeline : list BN.BlockNumberRecord) (table : Table) (h : string)
  (rows : list BalanceRecordWithTimestamp) (r : BalanceRecordWithTimestamp) :
  getLatestPerHolder isLatest timeline table !! h = Some rows →
  r ∈ rows →
  record r ∈ table
  ∧ ∃ n, n ∈ timeline
         ∧ BN.blockNumber n = blockNumber (record r)
         ∧ timestamp r = BN.timestamp n.
Proof.
  intros Hrows Hr.
  destruct (proj1 (elem_of_getLatestPerHolder isLatest timeline table h r))
    as (_ & Hj & _).
  { by exists rows. }
  destruct Hj as (Hrow & n & Hn & Hb & Ht). split; [done|]. by exists n.
Qed.

(** The row of token-a in the result of the test. *)
Lemma getLatestPerHolder_timestamp_witness :
  BalanceRepositoryTest.tokenA ∈ BalanceRepositoryTest.balances
  ∧ ∃ n, n ∈ BalanceRepositoryTest.added
         ∧ BN.blockNumber n = 123456
         ∧ BalanceRepositoryTest.START = BN.timestamp n.
Proof.
  apply (getLatestPerHolder_timestamp latestOfAssetByBlock
           BalanceRepositoryTest.added BalanceRepositoryTest.balances
           BalanceRepositoryTest.MOCK_HOLDER
           [ {| record := {| blockNumber := 123457;
                             holderAddress := BalanceRepositoryTest.MOCK_HOLDER;
                             assetId := BalanceRepositoryTest.MOCK_ASSET;
                             balance := BalanceRepositoryTest.MOCK_BALANCE |};
                timestamp := BalanceRepositoryTest.START_1h |};
             {| record := BalanceRepositoryTest.tokenA;
                timestamp := BalanceRepositoryTest.START |} ]
           {| record := BalanceRepositoryTest.tokenA;
              timestamp := BalanceRepositoryTest.START |}).
  - by vm_compute.
  - right. left.
Defined.

End BalanceFacts.

(* ===================================================================== *)
(** * Further properties *)
(* ===================================================================== *)

(** ** PriceRepository: rows read back, batches, boundaries *)

Module PriceExtra.

Import PriceRepository Stated.

(** *** Rows read back *)

Lemma toRecord_toRow_id (r : PriceRecord) : toRecord (toRow r) = Some r.
Proof.
  unfold toRecord, toRow; simpl.
  change (JS.toString (Time.toNumber (timestamp r)))
    with (Time.toString (timestamp r)).
  rewrite JSFacts.UnixTime_of_text. by destruct r.
Qed.

Lemma toString_inj (t u : UnixTime) :
  Time.toString t = Time.toString u → t = u.
Proof.
  intros E. apply (f_equal (λ s, Time.new_UnixTime (JS.StringToNumber s))) in E.
  rewrite !JSFacts.UnixTime_of_text in E. by injection E.
Qed.

Lemma filter_toRow_timestamp (t : UnixTime) (records : list PriceRecord) :
  filter (λ row, unix_timestamp row = Time.toString t) (toRow <$> records)
  = toRow <$> filter (λ r, Time.toNumber (timestamp r) = Time.toNumber t) records.
Proof.
  induction records as [|r records IH]; [done|].
  rewrite fmap_cons, !filter_cons, IH.
  destruct (decide (Time.toNumber (timestamp r) = Time.toNumber t)) as [E|N].
  - rewrite decide_True; [done|].
    simpl. unfold Time.toString. by rewrite E.
  - rewrite decide_False; [done|].
    simpl. intros E. apply (toString_inj (timestamp r) t) in E. by rewrite E in N.
Qed.

(** X1: every record written to the table is read back by [getAll], in the
    order written and as written: no [PriceRecord] loses anything in its
    row. *)
Theorem getAll_written (records : list PriceRecord) :
  getAll (toRow <$> records) = Some records.
Proof. apply mapM_fmap_Some, toRecord_toRow_id. Qed.

(** X2: on a table written from records, [getByToken] returns exactly the
    records of the asset, and [getByTimestamp] exactly the records of the
    timestamp, both in the order written. *)
Theorem lookups_written (records : list PriceRecord) (a : string) (t : UnixTime) :
  getByToken a (toRow <$> records)
  = Some (filter (λ r, assetId r = a) records)
  ∧ getByTimestamp t (toRow <$> records)
    = Some (filter (λ r, Time.toNumber (timestamp r) = Time.toNumber t) records).
Proof.
  split.
  - unfold getByToken. cbv zeta. rewrite PriceFacts.filter_toRow.
    apply mapM_fmap_Some, toRecord_toRow_id.
  - unfold getByTimestamp. cbv zeta. rewrite filter_toRow_timestamp.
    apply mapM_fmap_Some, toRecord_toRow_id.
Qed.

(** *** addMany and the store *)

Lemma insertChunks_all_accepted (accepts : Table → list PriceRow → bool)
  (chunks : list (list PriceRow)) :
  (∀ table c, accepts table c = true) →
  ∀ table inserted,
    insertChunks accepts table inserted chunks = Fulfilled () (table ++ concat chunks).
Proof.
  intros Hyes. induction chunks as [|c rest IH]; intros table inserted; simpl.
  - by rewrite app_nil_r.
  - rewrite Hyes, IH. by rewrite <- app_assoc.
Qed.

(** X3: when the store takes every statement, [addMany] is fulfilled with
    the number of records, and [getAll] then returns the records that were
    there followed by the new ones. *)
Theorem addMany_then_getAll (accepts : Table → list PriceRow → bool)
  (records prices : list PriceRecord) :
  (∀ table c, accepts table c = true) →
  ∃ table',
    addMany accepts prices (toRow <$> records) = Fulfilled (length prices) table'
    ∧ getAll table' = Some (records ++ prices).
Proof.
  intros Hyes. exists (toRow <$> (records ++ prices)). split.
  - unfold addMany, batchInsert.
    rewrite insertChunks_all_accepted by done.
    rewrite (PriceFacts.chunk_concat 9999), length_fmap. by rewrite fmap_app.
  - apply mapM_fmap_Some, toRecord_toRow_id.
Qed.

Lemma addMany_then_getAll_witness :
  ∃ table',
    addMany (λ _ _, true) [Samples.dai_later] (toRow <$> [Samples.dai_start])
    = Fulfilled 1%nat table'
    ∧ getAll table' = Some [Samples.dai_start; Samples.dai_later].
Proof.
  apply (addMany_then_getAll (λ _ _, true) [Samples.dai_start] [Samples.dai_later]).
  reflexivity.
Defined.

Lemma chunk_single {A} (n : nat) (l : list A) :
  (0 < length l ≤ S n)%nat → chunk (S n) l = [l].
Proof.
  destruct l as [|x l]; simpl; [lia|]. intros H. simp chunk.
  rewrite take_ge, drop_ge by lia. by simp chunk.
Qed.

(** X4: up to 10,000 records go to the store in one statement, so the call
    is all or nothing: fulfilled with every row in the table, or rejected
    with no row inserted. *)
Theorem addMany_single_statement (accepts : Table → list PriceRow → bool)
  (prices : list PriceRecord) (table : Table) :
  (0 < length prices ≤ 10000)%nat →
  addMany accepts prices table
  = if accepts table (toRow <$> prices)
    then Fulfilled (length prices) (table ++ (toRow <$> prices))
    else Rejected [].
Proof.
  intros H. unfold addMany, batchInsert.
  rewrite (chunk_single 9999) by (by rewrite length_fmap).
  simpl. destruct (accepts table _); [|done].
  by rewrite length_fmap.
Qed.

Lemma addMany_single_statement_witness :
  addMany (λ table _, bool_decide (table = [])) [Samples.dai_start; Samples.eth_start]
    (toRow <$> [Samples.dai_later])
  = Rejected [].
Proof.
  refine (eq_trans
            (addMany_single_statement (λ table _, bool_decide (table = []))
               [Samples.dai_start; Samples.eth_start]
               (toRow <$> [Samples.dai_later]) _) _).
  - split; [apply Nat.ltb_lt|apply Nat.leb_le]; by vm_compute.
  - reflexivity.
Defined.

Lemma chunk_full {A} (size : nat) (l : list A) :
  ∀ i c, chunk size l !! i = Some c →
         (S i < length (chunk size l))%nat → length c = size.
Proof.
  funelim (chunk size l); simp chunk; intros i c Hc Hi; [done..|].
  destruct i as [|i]; simpl in *.
  - injection Hc as <-. simpl.
    destruct (chunk (S n) (drop n l)) as [|c' rest] eqn:E; [simpl in Hi; lia|].
    assert (drop n l ≠ []) as Hd by (intros Hd; rewrite Hd in E; by simp chunk in E).
    rewrite length_take_le; [done|].
    destruct (decide (n ≤ length l)%nat); [done|].
    destruct Hd. apply drop_ge. lia.
  - apply (H i c Hc). lia.
Qed.

(** X5: every statement of [addMany] but the last carries exactly 10,000
    rows. *)
Theorem addMany_full_batches (prices : list PriceRecord) (i : nat)
  (c : list PriceRow) :
  chunk 10000 (toRow <$> prices) !! i = Some c →
  (S i < length (chunk 10000 (toRow <$> prices)))%nat →
  length c = 10000%nat.
Proof. apply chunk_full. Qed.

(** 10,001 samples: a full statement, then one of a single row. *)
Lemma addMany_full_batches_witness :
  length (toRow <$> replicate 10000 Samples.dai_start) = 10000%nat.
Proof.
  apply (addMany_full_batches (replicate 10001 Samples.dai_start) 0
           (toRow <$> replicate 10000 Samples.dai_start)).
  - by vm_compute.
  - apply Nat.ltb_lt. by vm_compute.
Defined.

(** *** Boundaries *)

Lemma isBoundary_unique (records : list PriceRecord) (a : string)
  (b b' : DataBoundary) :
  isBoundary records a b → isBoundary records a b' → b = b'.
Proof.
  intros ((r1 & Hr1 & Ha1 & E1) & (r2 & Hr2 & Ha2 & E2) & Hb)
         ((r1' & Hr1' & Ha1' & E1') & (r2' & Hr2' & Ha2' & E2') & Hb').
  destruct b as [e l], b' as [e' l']; simpl in *.
  pose proof (Hb r1' Hr1' Ha1') as [? _]. pose proof (Hb r2' Hr2' Ha2') as [_ ?].
  pose proof (Hb' r1 Hr1 Ha1) as [? _]. pose proof (Hb' r2 Hr2 Ha2) as [_ ?].
  f_equal; apply JSFacts.UnixTime_eq; subst; lia.
Qed.

(** The entries of the result, one by one. *)
Lemma calcDataBoundaries_lookup (records : list PriceRecord) :
  ∃ m, calcDataBoundaries (toRow <$> records) = Some m
       ∧ (∀ a, is_Some (m !! a) ↔ a ∈ assetId <$> records)
       ∧ ∀ a b, m !! a = Some b ↔ isBoundary records a b.
Proof.
  set (table := toRow <$> records).
  assert (asset_id <$> table = assetId <$> records) as Hassets.
  { unfold table. by rewrite <- list_fmap_compose. }
  destruct (PriceFacts.mapM_bind_entries (Q := isBoundary records) (group table)
              (remove_dups (asset_id <$> table))) as (entries & Hm & Hk & Hall).
  { intros a Ha. apply (proj1 (elem_of_remove_dups _ _)) in Ha.
    rewrite Hassets in Ha. by apply PriceFacts.boundary_of_group. }
  assert (∀ a, is_Some (new_Map entries !! a) ↔ a ∈ assetId <$> records) as Hdom.
  { intros a. rewrite <- elem_of_dom, PriceFacts.new_Map_dom, Hk, Hassets.
    by rewrite elem_of_list_to_set, elem_of_remove_dups. }
  exists (new_Map entries). split; [|split; [done|]].
  - unfold calcDataBoundaries, minMaxGroupByAsset.
    destruct (mapM (group table) _) as [rows|]; [|done].
    simpl in *. by rewrite Hm.
  - intros a b. split.
    + intros Hab%PriceFacts.new_Map_lookup_Some. by apply Hall.
    + intros Hb. destruct (proj2 (Hdom a)) as [b0 Hb0].
      { destruct Hb as ((r & Hr & <- & _) & _). by apply list_elem_of_fmap_2. }
      rewrite Hb0. f_equal.
      apply (isBoundary_unique records a); [|done].
      by apply Hall, PriceFacts.new_Map_lookup_Some.
Qed.

(** X6: the boundaries do not depend on the order of the rows. *)
Theorem calcDataBoundaries_order (records records' : list PriceRecord) :
  records ≡ₚ records' →
  calcDataBoundaries (toRow <$> records) = calcDataBoundaries (toRow <$> records').
Proof.
  intros Hperm.
  destruct (calcDataBoundaries_lookup records) as (m & -> & _ & Hm).
  destruct (calcDataBoundaries_lookup records') as (m' & -> & _ & Hm').
  f_equal. apply map_eq. intros a. apply option_eq. intros b.
  rewrite Hm, Hm'. unfold isBoundary.
  assert (∀ r, r ∈ records ↔ r ∈ records') as Hin
    by (intros r; by rewrite Hperm).
  split; intros ((r1 & H1 & ?) & (r2 & H2 & ?) & Hb);
    (split; [exists r1|split; [exists r2|]]);
    try (split; [by apply Hin|done]);
    intros r Hr; apply Hb; by apply Hin.
Qed.

Lemma calcDataBoundaries_order_witness :
  calcDataBoundaries (toRow <$> [Samples.dai_start; Samples.eth_start; Samples.dai_later])
  = calcDataBoundaries (toRow <$> [Samples.dai_later; Samples.dai_start; Samples.eth_start]).
Proof.
  apply (calcDataBoundaries_order
           [Samples.dai_start; Samples.eth_start; Samples.dai_later]
           [Samples.dai_later; Samples.dai_start; Samples.eth_start]).
  apply Permutation_sym.
  apply (Permutation_cons_append [Samples.dai_start; Samples.eth_start]
           Samples.dai_later).
Defined.

(** X7: more records only widen a boundary: after further records are
    written, an asset that had a boundary still has one, starting no later
    and ending no earlier. *)
Theorem calcDataBoundaries_widens (records more : list PriceRecord)
  (m : gmap string DataBoundary) (a : string) (b : DataBoundary) :
  calcDataBoundaries (toRow <$> records) = Some m →
  m !! a = Some b →
  ∃ m' b',
    calcDataBoundaries (toRow <$> (records ++ more)) = Some m'
    ∧ m' !! a = Some b'
    ∧ Time.toNumber (earliest b') ≤ Time.toNumber (earliest b)
    ∧ Time.toNumber (latest b) ≤ Time.toNumber (latest b').
Proof.
  intros Hcalc Hab.
  destruct (calcDataBoundaries_lookup records) as (m0 & E0 & _ & Hm).
  rewrite Hcalc in E0. injection E0 as <-.
  destruct (calcDataBoundaries_lookup (records ++ more)) as (m' & E' & Hdom' & Hm').
  apply Hm in Hab as ((r1 & Hr1 & Ha1 & E1) & (r2 & Hr2 & Ha2 & E2) & _).
  destruct (proj2 (Hdom' a)) as [b' Hb'].
  { rewrite <- Ha1. apply list_elem_of_fmap_2, elem_of_app. by left. }
  exists m', b'. split; [done|]. split; [done|].
  apply Hm' in Hb' as (_ & _ & Hbetween).
  rewrite <- E1, <- E2. split.
  - apply (Hbetween r1); [apply elem_of_app; by left|done].
  - apply (Hbetween r2); [apply elem_of_app; by left|done].
Qed.

Lemma calcDataBoundaries_widens_witness :
  ∃ m' b',
    calcDataBoundaries (toRow <$> ([Samples.dai_later] ++ [Samples.dai_start])) = Some m'
    ∧ m' !! "dai-dai-stablecoin" = Some b'
    ∧ Time.toNumber (earliest b') ≤ Time.toNumber BalanceRepositoryTest.START_1h
    ∧ Time.toNumber BalanceRepositoryTest.START_1h ≤ Time.toNumber (latest b').
Proof.
  apply (calcDataBoundaries_widens [Samples.dai_later] [Samples.dai_start]
           {[ "dai-dai-stablecoin" :=
                {| earliest := BalanceRepositoryTest.START_1h;
                   latest := BalanceRepositoryTest.START_1h |} ]}
           "dai-dai-stablecoin"
           {| earliest := BalanceRepositoryTest.START_1h;
              latest := BalanceRepositoryTest.START_1h |}).
  - by vm_compute.
  - by vm_compute.
Defined.

End PriceExtra.

(** ** Numbers beyond the safe integers *)

Module RoundingExtra.

Import JS.

(** Above [2^53] a natural number splits into its 53 leading bits [q] and
    the [e] bits below them, and is rounded to [q] or [q + 1] times
    [2^e]. *)
Lemma round_binary64_split (n : Z) :
  2 ^ 53 ≤ n →
  let e := Z.log2 n - 52 in
  let q := n / 2 ^ e in
  let r := n mod 2 ^ e in
  1 ≤ e ∧ 2 ^ 52 ≤ q < 2 ^ 53 ∧ n = q * 2 ^ e + r ∧ 0 ≤ r < 2 ^ e
  ∧ 2 ^ e = 2 * 2 ^ (e - 1) ∧ 0 < 2 ^ (e - 1)
  ∧ round_binary64 n
    = (if (2 ^ (e - 1) <? r) || ((2 ^ (e - 1) =? r) && Z.odd q) then q + 1 else q)
      * 2 ^ e.
Proof.
  intros Hn e q r.
  assert (0 < n) as Hpos by (pose proof (Z.pow_pos_nonneg 2 53); lia).
  assert (53 ≤ Z.log2 n) as Hlog.
  { rewrite <- (Z.log2_pow2 53) by lia. by apply Z.log2_le_mono. }
  assert (1 ≤ e) as He by (unfold e; lia).
  assert (0 < 2 ^ e) as Hpe by (apply Z.pow_pos_nonneg; lia).
  assert (0 < 2 ^ (e - 1)) as Hph by (apply Z.pow_pos_nonneg; lia).
  assert (2 ^ e = 2 * 2 ^ (e - 1)) as Hdouble.
  { replace e with (1 + (e - 1)) at 1 by lia. rewrite Z.pow_add_r by lia. done. }
  destruct (Z.log2_spec n Hpos) as [Hlo Hhi].
  assert (2 ^ Z.log2 n = 2 ^ 52 * 2 ^ e) as Elo.
  { rewrite <- Z.pow_add_r by lia. f_equal. unfold e. lia. }
  assert (2 ^ Z.succ (Z.log2 n) = 2 ^ 53 * 2 ^ e) as Ehi.
  { rewrite <- Z.pow_add_r by lia. f_equal. unfold e. lia. }
  rewrite Elo in Hlo. rewrite Ehi in Hhi.
  assert (2 ^ 52 ≤ q < 2 ^ 53) as Hq.
  { unfold q. split.
    - apply Z.div_le_lower_bound; lia.
    - apply Z.div_lt_upper_bound; lia. }
  pose proof (Z.mod_pos_bound n (2 ^ e) Hpe) as Hr.
  pose proof (Z.div_mod n (2 ^ e) ltac:(lia)) as Hdiv.
  repeat (split; [first [done | lia]|]).
  unfold round_binary64.
  destruct (Z.ltb_spec n (2 ^ 53)) as [|_]; [lia|].
  fold e. rewrite Z.shiftr_div_pow2, Z.land_ones by lia.
  rewrite !Z.shiftl_mul_pow2 by lia. rewrite Z.mul_1_l. done.
Qed.

Lemma round_binary64_small (n : Z) : n < 2 ^ 53 → round_binary64 n = n.
Proof.
  intros H. unfold round_binary64.
  by destruct (Z.ltb_spec n (2 ^ 53)) as [_|]; [|lia].
Qed.

(** A number whose bits below the 53 leading ones are all zero is its own
    rounding. *)
Lemma round_binary64_fixed (m : Z) :
  2 ^ 53 ≤ m → m mod 2 ^ (Z.log2 m - 52) = 0 → round_binary64 m = m.
Proof.
  intros Hm Hmod.
  destruct (round_binary64_split m Hm) as (He & Hq & Hsplit & Hr & Hd & Hh & ->).
  rewrite Hmod in *.
  destruct (Z.ltb_spec (2 ^ (Z.log2 m - 52 - 1)) 0) as [|_]; [lia|].
  destruct (Z.eqb_spec (2 ^ (Z.log2 m - 52 - 1)) 0) as [|_]; [lia|].
  simpl. lia.
Qed.

Lemma round_binary64_idempotent (n : Z) :
  round_binary64 (round_binary64 n) = round_binary64 n.
Proof.
  destruct (Z.lt_ge_cases n (2 ^ 53)) as [Hsmall|Hbig].
  - by rewrite !(round_binary64_small n).
  - destruct (round_binary64_split n Hbig) as (He & Hq & Hsplit & Hr & Hd & Hh & ->).
    set (e := Z.log2 n - 52) in *.
    match goal with
    | |- context [if ?c then ?a else ?b] =>
        set (q' := if c then a else b);
        assert (2 ^ 52 ≤ q' ≤ 2 ^ 53) as Hq' by (unfold q'; destruct c; lia)
    end.
    assert (0 < 2 ^ e) as Hpe by lia.
    apply round_binary64_fixed.
    + assert (2 ^ 53 = 2 ^ 52 * 2) as -> by done. nia.
    + destruct (decide (q' = 2 ^ 53)) as [->|Hne].
      * rewrite <- Z.pow_add_r, Z.log2_pow2 by lia.
        replace (53 + e) with (52 + (53 + e - 52)) at 1 by lia.
        rewrite Z.pow_add_r by lia. apply Z.mod_mul. 
        apply Z.pow_nonzero; lia.
      * assert (Z.log2 (q' * 2 ^ e) = 52 + e) as ->.
        { apply Z.log2_unique; [lia|].
          replace (Z.succ (52 + e)) with (53 + e) by lia.
          rewrite !Z.pow_add_r by lia. clearbody q'. nia. }
        replace (52 + e - 52) with e by lia.
        apply Z.mod_mul. lia.
Qed.

(** The rounding is off by half a unit of the last kept bit at most. *)
Lemma round_binary64_error (n : Z) :
  0 ≤ n → 2 ^ 53 * Z.abs (round_binary64 n - n) ≤ n.
Proof.
  intros Hn0. destruct (Z.lt_ge_cases n (2 ^ 53)) as [Hsmall|Hbig].
  - rewrite round_binary64_small by done.
    replace (n - n) with 0 by lia. simpl. lia.
  - destruct (round_binary64_split n Hbig) as (He & Hq & Hsplit & Hr & Hd & Hh & ->).
    set (e := Z.log2 n - 52) in *.
    set (q := n / 2 ^ e) in *. set (r := n mod 2 ^ e) in *.
    set (h := 2 ^ (e - 1)) in *.
    assert (2 ^ 53 * h ≤ n) as Hulp.
    { assert (2 ^ 53 = 2 ^ 52 * 2) as -> by done. nia. }
    destruct (Z.ltb_spec h r); simpl.
    + replace ((q + 1) * 2 ^ e - n) with (2 ^ e - r) by lia.
      rewrite Z.abs_eq by lia.
      assert (2 ^ e - r ≤ h) by lia. nia.
    + destruct (Z.eqb_spec h r); simpl.
      * destruct (Z.odd q).
        -- replace ((q + 1) * 2 ^ e - n) with (2 ^ e - r) by lia.
           rewrite Z.abs_eq by lia.
           assert (2 ^ e - r ≤ h) by lia. nia.
        -- replace (q * 2 ^ e - n) with (- r) by lia.
           rewrite Z.abs_opp, Z.abs_eq by lia. nia.
      * replace (q * 2 ^ e - n) with (- r) by lia.
        rewrite Z.abs_opp, Z.abs_eq by lia. nia.
Qed.

(** The rounding stays within the power of two above the number. *)
Lemma round_binary64_range (n : Z) :
  2 ^ 53 ≤ n → 2 ^ Z.log2 n ≤ round_binary64 n ≤ 2 ^ (Z.log2 n + 1).
Proof.
  intros Hbig.
  destruct (round_binary64_split n Hbig) as (He & Hq & Hsplit & Hr & Hd & Hh & ->).
  set (e := Z.log2 n - 52) in *.
  match goal with
  | |- context [if ?c then ?a else ?b] =>
      set (q' := if c then a else b);
      assert (2 ^ 52 ≤ q' ≤ 2 ^ 53) as Hq' by (unfold q'; destruct c; lia)
  end.
  assert (0 < 2 ^ e) as Hpe by lia.
  replace (Z.log2 n) with (52 + e) by (unfold e; lia).
  replace (52 + e + 1) with (53 + e) by lia.
  rewrite !Z.pow_add_r by lia. nia.
Qed.

Lemma round_binary64_nonneg (n : Z) : 0 ≤ n → 0 ≤ round_binary64 n.
Proof.
  intros Hn. destruct (Z.lt_ge_cases n (2 ^ 53)) as [Hsmall|Hbig].
  - by rewrite round_binary64_small.
  - pose proof (round_binary64_range n Hbig) as [H _].
    pose proof (Z.pow_pos_nonneg 2 (Z.log2 n) ltac:(lia) (Z.log2_nonneg n)). lia.
Qed.

(** What [Number] makes of a bigint when the result is finite. *)
Lemma Number_of_bigint_Finite (b m : Z) :
  Number_of_bigint b = Finite m →
  m = Z.sgn b * round_binary64 (Z.abs b) ∧ round_binary64 (Z.abs b) < 2 ^ 1024.
Proof.
  unfold Number_of_bigint.
  destruct (Z.leb_spec (2 ^ 1024) (round_binary64 (Z.abs b))) as [|Hlt].
  - by destruct (b <? 0).
  - by intros [= <-].
Qed.

(** A number that came out of [Number] goes through it unchanged. *)
Lemma Number_of_bigint_stable (b m : Z) :
  Number_of_bigint b = Finite m → Number_of_bigint m = Finite m.
Proof.
  intros [-> Hlt]%Number_of_bigint_Finite.
  pose proof (round_binary64_nonneg (Z.abs b) (Z.abs_nonneg b)) as Hk.
  set (k := round_binary64 (Z.abs b)) in *.
  assert (Z.abs (Z.sgn b * k) = k ∨ (b = 0 ∧ k = 0)) as Habs.
  { destruct b; [right|left|left]; [|simpl; lia..].
    split; [done|]. unfold k. by rewrite round_binary64_small. }
  unfold Number_of_bigint.
  assert (round_binary64 (Z.abs (Z.sgn b * k)) = k) as ->.
  { destruct Habs as [->|[-> ->]]; [apply round_binary64_idempotent|done]. }
  destruct (Z.leb_spec (2 ^ 1024) k) as [|_]; [lia|].
  f_equal. destruct b; simpl; [lia| |]; destruct k; simpl; lia.
Qed.

End RoundingExtra.

(** ** BlockNumberRepository: rows read back and written again *)

Module BlockNumberExtra.

Import BlockNumberRepository Stated.

Lemma toRecord_toRow_Some (r r' : BlockNumberRecord) :
  toRecord (toRow r) = Some r' →
  timestamp r' = timestamp r
  ∧ JS.Number_of_bigint (blockNumber r) = JS.Finite (blockNumber r').
Proof.
  rewrite BlockNumberFacts.toRecord_toRow.
  destruct (JS.Number_of_bigint (blockNumber r)); simpl; [|done..].
  by intros [= <-].
Qed.

(** X8: a record read back from its row is written to the same row again,
    and read back from it unchanged: whatever the first conversion to a
    [number] loses, nothing more is lost after it. *)
Theorem toRow_toRecord_stable (r r' : BlockNumberRecord) :
  toRecord (toRow r) = Some r' →
  toRow r' = toRow r ∧ toRecord (toRow r') = Some r'.
Proof.
  intros [Ht Hb]%toRecord_toRow_Some.
  pose proof (RoundingExtra.Number_of_bigint_stable _ _ Hb) as Hb'.
  split.
  - unfold toRow. by rewrite Ht, Hb, Hb'.
  - rewrite BlockNumberFacts.toRecord_toRow, Hb'. simpl. by destruct r'.
Qed.

Lemma toRow_toRecord_stable_witness :
  toRow {| timestamp := BalanceRepositoryTest.START; blockNumber := 2 ^ 53 |}
  = toRow beyondSafe
  ∧ toRecord
      (toRow {| timestamp := BalanceRepositoryTest.START; blockNumber := 2 ^ 53 |})
    = Some {| timestamp := BalanceRepositoryTest.START; blockNumber := 2 ^ 53 |}.
Proof.
  apply (toRow_toRecord_stable beyondSafe
           {| timestamp := BalanceRepositoryTest.START; blockNumber := 2 ^ 53 |}).
  by vm_compute.
Defined.

(** X9: the block number read back is the one written up to one part in
    [2^53]; the timestamp is the one written. *)
Theorem toRecord_toRow_error (r r' : BlockNumberRecord) :
  toRecord (toRow r) = Some r' →
  timestamp r' = timestamp r
  ∧ 2 ^ 53 * Z.abs (blockNumber r' - blockNumber r) ≤ Z.abs (blockNumber r).
Proof.
  intros [Ht Hb]%toRecord_toRow_Some. split; [done|].
  apply RoundingExtra.Number_of_bigint_Finite in Hb as [-> _].
  pose proof (RoundingExtra.round_binary64_error (Z.abs (blockNumber r))
                (Z.abs_nonneg _)) as Herr.
  set (k := JS.round_binary64 (Z.abs (blockNumber r))) in *. clearbody k.
  destruct (Z.sgn_spec (blockNumber r)) as [[Hb ->]|[[Hb ->]|[Hb ->]]]; lia.
Qed.

Lemma toRecord_toRow_error_witness :
  BalanceRepositoryTest.START = BalanceRepositoryTest.START
  ∧ 2 ^ 53 * Z.abs (2 ^ 53 - (2 ^ 53 + 1)) ≤ Z.abs (2 ^ 53 + 1).
Proof.
  apply (toRecord_toRow_error beyondSafe
           {| timestamp := BalanceRepositoryTest.START; blockNumber := 2 ^ 53 |}).
  by vm_compute.
Defined.

(** X10: the round trip is fulfilled for every block number below [2^1023]
    in magnitude, and throws from [2^1024] on, where the [number] written
    is infinite and [BigInt] refuses it. *)
Theorem toRecord_toRow_overflow (r : BlockNumberRecord) :
  (Z.abs (blockNumber r) < 2 ^ 1023 → is_Some (toRecord (toRow r)))
  ∧ (2 ^ 1024 ≤ Z.abs (blockNumber r) → toRecord (toRow r) = None).
Proof.
  rewrite BlockNumberFacts.toRecord_toRow. unfold JS.Number_of_bigint.
  set (n := Z.abs (blockNumber r)).
  assert (2 ^ 53 < 2 ^ 1023) as H53 by (apply Z.pow_lt_mono_r; lia).
  assert (2 ^ 1023 < 2 ^ 1024) as H1023 by (apply Z.pow_lt_mono_r; lia).
  split; intros Hn.
  - assert (JS.round_binary64 n < 2 ^ 1024) as Hlt.
    { destruct (Z.lt_ge_cases n (2 ^ 53)) as [Hsmall|Hbig].
      - rewrite RoundingExtra.round_binary64_small by done. lia.
      - pose proof (RoundingExtra.round_binary64_range n Hbig) as [_ Hup].
        assert (Z.log2 n < 1023) as Hlog by (apply Z.log2_lt_pow2; lia).
        assert (2 ^ (Z.log2 n + 1) ≤ 2 ^ 1023) by (apply Z.pow_le_mono_r; lia).
        lia. }
    destruct (Z.leb_spec (2 ^ 1024) (JS.round_binary64 n)) as [|_]; [lia|].
    simpl. by eexists.
  - assert (2 ^ 1024 ≤ JS.round_binary64 n) as Hge.
    { pose proof (RoundingExtra.round_binary64_range n ltac:(lia)) as [Hlow _].
      assert (1024 ≤ Z.log2 n) as Hlog by (apply Z.log2_le_pow2; lia).
      assert (2 ^ 1024 ≤ 2 ^ Z.log2 n) by (apply Z.pow_le_mono_r; lia).
      lia. }
    destruct (Z.leb_spec (2 ^ 1024) (JS.round_binary64 n)) as [_|]; [|lia].
    by destruct (blockNumber r <? 0).
Qed.

Lemma toRecord_toRow_overflow_witness :
  toRecord (toRow {| timestamp := BalanceRepositoryTest.START;
                     blockNumber := 2 ^ 1024 |}) = None
  ∧ is_Some (toRecord (toRow beyondSafe)).
Proof.
  split.
  - apply (toRecord_toRow_overflow
             {| timestamp := BalanceRepositoryTest.START; blockNumber := 2 ^ 1024 |}).
    by vm_compute.
  - apply (toRecord_toRow_overflow beyondSafe). by vm_compute.
Defined.

(** X11: when [add] of a record of a safe block number is fulfilled, the
    record is the last one [getAll] returns, after the records that were
    there. *)
Theorem getAll_add (accepts : Table → BlockNumberRow → bool) (objects : bool)
  (table table' : Table) (records : list BlockNumberRecord)
  (r : BlockNumberRecord) (id : Returned) :
  getAll table = Some records →
  Is_true (JS.isSafeInteger (blockNumber r)) →
  add accepts objects r table = (Some id, table') →
  getAll table' = Some (records ++ [r]).
Proof.
  intros Hall Hsafe Hadd. unfold add in Hadd.
  destruct (accepts table (toRow r)); [|done]. injection Hadd as _ <-.
  unfold getAll in *.
  apply mapM_Some, Forall2_app; [by apply mapM_Some|].
  constructor; [|constructor].
  rewrite BlockNumberFacts.toRecord_toRow.
  rewrite JSFacts.Number_of_bigint_safe by done. simpl. by destruct r.
Qed.

Lemma getAll_add_witness :
  getAll (BalanceRepositoryTest.block_numbers
          ++ [toRow {| timestamp := BalanceRepositoryTest.START_1h;
                       blockNumber := 123458 |}])
  = Some (BalanceRepositoryTest.added
          ++ [ {| timestamp := BalanceRepositoryTest.START_1h;
                  blockNumber := 123458 |} ]).
Proof.
  apply (getAll_add Samples.integerColumn false
           BalanceRepositoryTest.block_numbers _ BalanceRepositoryTest.added
           {| timestamp := BalanceRepositoryTest.START_1h; blockNumber := 123458 |}
           (Value (JS.Finite 123458))).
  - by vm_compute.
  - exact I.
  - reflexivity.
Defined.

End BlockNumberExtra.

(** ** BalanceRepository: the cases of the test suite, for every batch *)

Module BalanceExtra.

Import BalanceRepository Stated.

(** X13: a batch of keys that are new to the table and distinct among
    themselves is appended to the table as it is ('new rows only'). *)
Theorem addOrUpdateMany_new_rows (records : list BalanceRecord) (table : Table) :
  NoDup (key <$> records) →
  Forall (λ r, key r ∉ key <$> table) records →
  addOrUpdateMany records table = table ++ records.
Proof.
  revert table. induction records as [|r records IH]; intros table Hnd Hnew.
  - by rewrite app_nil_r.
  - rewrite fmap_cons in Hnd. apply NoDup_cons in Hnd as [Hr Hnd].
    apply Forall_cons in Hnew as [Hr' Hnew].
    rewrite BalanceFacts.addOrUpdateMany_cons, BalanceFacts.upsert_absent by done.
    rewrite IH; [by rewrite <- app_assoc|done|].
    apply Forall_forall. intros r' Hin.
    rewrite fmap_app. intros [Ht|Hs%list_elem_of_singleton]%elem_of_app.
    + by apply (proj1 (Forall_forall _ _) Hnew r' Hin).
    + apply Hr. rewrite <- Hs. by apply list_elem_of_fmap_2.
Qed.

Lemma addOrUpdateMany_new_rows_witness :
  addOrUpdateMany BalanceRepositoryTest.newRows (BalanceRepositoryTest.beforeEach [])
  = BalanceRepositoryTest.beforeEach [] ++ BalanceRepositoryTest.newRows.
Proof.
  apply (addOrUpdateMany_new_rows BalanceRepositoryTest.newRows
           (BalanceRepositoryTest.beforeEach [])).
  - apply (bool_decide_unpack _). by vm_compute.
  - apply (bool_decide_unpack _). by vm_compute.
Defined.

Lemma upsert_existing (r : BalanceRecord) (table : Table) :
  NoDup (key <$> table) → r ∈ table → upsert r table = table.
Proof.
  induction table as [|row rest IH]; intros Hnd Hin; [by apply elem_of_nil in Hin|].
  rewrite fmap_cons in Hnd. apply NoDup_cons in Hnd as [Hrow Hnd].
  simpl. destruct (decide (key row = key r)) as [E|N].
  - apply elem_of_cons in Hin as [->|Hin].
    + by rewrite BalanceFacts.setBalance_same_key.
    + destruct Hrow. rewrite E. by apply list_elem_of_fmap_2.
  - apply elem_of_cons in Hin as [->|Hin]; [done|]. by rewrite IH.
Qed.

(** X14: a batch of records that are rows of the table already leaves the
    table as it is ('existing rows only'). *)
Theorem addOrUpdateMany_existing_rows (records : list BalanceRecord) (table : Table) :
  NoDup (key <$> table) →
  records ⊆ table →
  addOrUpdateMany records table = table.
Proof.
  intros Hnd. induction records as [|r records IH]; intros Hsub; [done|].
  rewrite BalanceFacts.addOrUpdateMany_cons, upsert_existing.
  - apply IH. intros x Hx. apply Hsub. by right.
  - done.
  - apply Hsub. left.
Qed.

Lemma addOrUpdateMany_existing_rows_witness :
  addOrUpdateMany BalanceRepositoryTest.DATA (BalanceRepositoryTest.beforeEach [])
  = BalanceRepositoryTest.beforeEach [].
Proof.
  apply (addOrUpdateMany_existing_rows BalanceRepositoryTest.DATA
           (BalanceRepositoryTest.beforeEach [])).
  - apply (bool_decide_unpack _). by vm_compute.
  - intros x Hx. exact Hx.
Defined.

End BalanceExtra.

(** ** PriceRepository: how the methods agree *)

Module PriceCompose.

Import PriceRepository Stated.

Lemma getByToken_records (a : string) (records : list PriceRecord) :
  getByToken a (toRow <$> records) = Some (filter (λ r, assetId r = a) records).
Proof.
  unfold getByToken. cbv zeta. rewrite PriceFacts.filter_toRow.
  apply mapM_fmap_Some, PriceExtra.toRecord_toRow_id.
Qed.

(** X16: [calcDataBoundaries] and [getByToken] agree: an asset has no
    boundary exactly when [getByToken] finds no record of it, and every
    record [getByToken] returns lies within the boundary of its asset. *)
Theorem calcDataBoundaries_getByToken (records : list PriceRecord)
  (m : gmap string DataBoundary) (a : string) :
  calcDataBoundaries (toRow <$> records) = Some m →
  (m !! a = None ↔ getByToken a (toRow <$> records) = Some [])
  ∧ ∀ b found r,
      m !! a = Some b →
      getByToken a (toRow <$> records) = Some found →
      r ∈ found →
      Time.toNumber (earliest b) ≤ Time.toNumber (timestamp r)
      ∧ Time.toNumber (timestamp r) ≤ Time.toNumber (latest b).
Proof.
  intros Hcalc.
  destruct (PriceExtra.calcDataBoundaries_lookup records) as (m0 & E0 & Hdom & Hm).
  rewrite Hcalc in E0. injection E0 as <-.
  rewrite getByToken_records. split.
  - rewrite eq_None_not_Some, Hdom. split.
    + intros Hno. f_equal. apply PriceFacts.filter_none.
      intros r Hr Ha. apply Hno. rewrite <- Ha. by apply list_elem_of_fmap_2.
    + intros [= Hnil] (r & -> & Hr)%list_elem_of_fmap.
      assert (r ∈ filter (λ r0, assetId r0 = assetId r) records) as Hin
        by (by apply list_elem_of_filter).
      rewrite Hnil in Hin. by apply elem_of_nil in Hin.
  - intros b found r Hb [= <-] [Ha Hr]%list_elem_of_filter.
    apply Hm in Hb as (_ & _ & Hbetween). by apply Hbetween.
Qed.

Lemma calcDataBoundaries_getByToken_witness :
  (Samples.dai_boundaries !! "eth-ethereum" = None
   ↔ getByToken "eth-ethereum" (toRow <$> [Samples.dai_start; Samples.dai_later])
     = Some [])
  ∧ ∀ b found r,
      Samples.dai_boundaries !! "eth-ethereum" = Some b →
      getByToken "eth-ethereum" (toRow <$> [Samples.dai_start; Samples.dai_later])
      = Some found →
      r ∈ found →
      Time.toNumber (earliest b) ≤ Time.toNumber (timestamp r)
      ∧ Time.toNumber (timestamp r) ≤ Time.toNumber (latest b).
Proof.
  apply (calcDataBoundaries_getByToken [Samples.dai_start; Samples.dai_later]
           Samples.dai_boundaries "eth-ethereum").
  by vm_compute.
Defined.

Lemma acceptedInOrder_app (accepts : Table → list PriceRow → bool)
  (table : Table) (before after : list (list PriceRow)) :
  acceptedInOrder accepts table (before ++ after)
  ↔ acceptedInOrder accepts table before
    ∧ acceptedInOrder accepts (table ++ concat before) after.
Proof.
  revert table. induction before as [|c before IH]; intros table; simpl.
  - rewrite app_nil_r. naive_solver.
  - rewrite IH, <- app_assoc. naive_solver.
Qed.

(** X17: [addMany] is fulfilled exactly when the store takes every batch,
    one after the other; in every other case it is rejected. *)
Theorem addMany_fulfilled_iff (accepts : Table → list PriceRow → bool)
  (prices : list PriceRecord) (table : Table) :
  acceptedInOrder accepts table (chunk 10000 (toRow <$> prices))
  ↔ addMany accepts prices table
    = Fulfilled (length prices) (table ++ (toRow <$> prices)).
Proof.
  unfold addMany, batchInsert.
  pose proof (PriceFacts.insertChunks_settles accepts
                (chunk 10000 (toRow <$> prices)) table []) as H.
  destruct (insertChunks accepts table [] _) as [[] table'|done].
  - destruct H as [-> Hall].
    rewrite (PriceFacts.chunk_concat 9999), length_fmap. done.
  - destruct H as (before & failing & rest & Hb & _ & _ & Hno).
    split; [|done]. rewrite Hb. intros [_ Hrest]%acceptedInOrder_app.
    simpl in Hrest. destruct Hrest as [Hyes _]. congruence.
Qed.

End PriceCompose.
